(** * Power-factor calculator: the solver, its validation and its source lock

    A shallow embedding of [calculatePowerFactor] and its helpers from
    [src/powerFactorCalculator.js].  The file holds two copies of the
    calculator (an object with an [init] method, and an exported [init]
    function); their [calculatePowerFactor], [resetToInitialState],
    [clearFields], [setReadOnly] and [resetPlaceholder] are the same code, so
    one embedding serves both.

    Numbers.  JavaScript numbers are IEEE-754 doubles.  Here every finite
    double is read as the real number it denotes and arithmetic on finite
    values is exact real arithmetic: there is no rounding, no overflow, no
    underflow and no negative zero.  [NaN] and the two infinities are kept,
    because the source writes them ([NaN], [Infinity], [isNaN], [isFinite])
    and [parseFloat] can return them.

    Text.  Field values are strings; [trim], [parseFloat] and [toFixed(3)] are
    given their ECMAScript meaning on ASCII strings.  An input may hold any
    text: what a browser does to the value of an [<input type="number">] is
    not modelled, and the code itself tests for text that is not a number.

    State.  The variables of [init]'s closure ([initialCalculationDone],
    [sourceFieldIds]), the four inputs and the status line make up one
    record, passed through every function that reads or writes them.

    Time.  What [debounce] and the event listeners decide, namely after
    which edits [calculatePowerFactor] runs, is given as two schedules over a
    list of edits.  [debounce] itself is embedded in module [Debounce], over
    a host with a clock in milliseconds and a table of timers
    ([setTimeout], [clearTimeout]); the host runs the timers that are due
    before it delivers a later event.

    Shell.  The caller of [init], [src/main.js], is embedded in module
    [Shell] as far as it decides which section is shown and when [init]
    runs: sections and buttons with their [active] class and the
    [initialized] mark; the generated HTML is not modelled. *)

From Stdlib Require Import Reals Lra Lia ZArith List String Ascii Bool.
From Stdlib Require Import DecimalString.
Import ListNotations.

Local Open Scope Z_scope.
Local Open Scope R_scope.
Local Open Scope string_scope.

(** ** JavaScript numbers over the reals *)

Module Num.

Inductive num : Type :=
| NaN
| Inf (neg : bool)    (* [Inf false] is Infinity, [Inf true] is -Infinity *)
| Fin (x : R).

Definition Rltb (x y : R) : bool := if Rlt_dec x y then true else false.
Definition Reqb (x y : R) : bool := if Req_dec_T x y then true else false.

(** [a < b] *)
Definition lt (a b : num) : bool :=
  match a, b with
  | NaN, _ | _, NaN => false
  | Inf true, Inf true => false
  | Inf true, _ => true
  | _, Inf true => false
  | Inf false, _ => false
  | Fin _, Inf false => true
  | Fin x, Fin y => Rltb x y
  end.

(** [a > b] *)
Definition gt (a b : num) : bool := lt b a.

(** [a === b] *)
Definition seq (a b : num) : bool :=
  match a, b with
  | Inf n, Inf m => Bool.eqb n m
  | Fin x, Fin y => Reqb x y
  | _, _ => false
  end.

(** [a !== b] *)
Definition sne (a b : num) : bool := negb (seq a b).

Definition isNaN (a : num) : bool :=
  match a with NaN => true | _ => false end.

Definition isFinite (a : num) : bool :=
  match a with Fin _ => true | _ => false end.

Definition neg (a : num) : num :=
  match a with
  | NaN => NaN
  | Inf n => Inf (negb n)
  | Fin x => Fin (- x)
  end.

(** An infinity times a finite factor: NaN at zero, else the signs combine. *)
Definition scaleInf (n : bool) (x : R) : num :=
  if Reqb x 0 then NaN else Inf (xorb n (Rltb x 0)).

(** [a * b] *)
Definition mul (a b : num) : num :=
  match a, b with
  | NaN, _ | _, NaN => NaN
  | Inf n, Inf m => Inf (xorb n m)
  | Inf n, Fin x | Fin x, Inf n => scaleInf n x
  | Fin x, Fin y => Fin (x * y)
  end.

(** [a + b] *)
Definition add (a b : num) : num :=
  match a, b with
  | NaN, _ | _, NaN => NaN
  | Inf n, Inf m => if Bool.eqb n m then Inf n else NaN
  | Inf n, Fin _ | Fin _, Inf n => Inf n
  | Fin x, Fin y => Fin (x + y)
  end.

(** [a - b] *)
Definition sub (a b : num) : num := add a (neg b).

(** [a / b]; a finite value over zero gives NaN or an infinity. *)
Definition div (a b : num) : num :=
  match a, b with
  | NaN, _ | _, NaN => NaN
  | Inf _, Inf _ => NaN
  | Inf n, Fin y => Inf (xorb n (Rltb y 0))
  | Fin _, Inf _ => Fin 0
  | Fin x, Fin y =>
      if Reqb y 0
      then (if Reqb x 0 then NaN else Inf (Rltb x 0))
      else Fin (x / y)
  end.

End Num.

Export Num.

(** ** The [Math] functions the solver calls *)

Module Math.

Definition abs (a : num) : num :=
  match a with
  | NaN => NaN
  | Inf _ => Inf false
  | Fin x => Fin (Rabs x)
  end.

Definition sqrt (a : num) : num :=
  match a with
  | NaN => NaN
  | Inf n => if n then NaN else Inf false
  | Fin x => if Rltb x 0 then NaN else Fin (R_sqrt.sqrt x)
  end.

Definition acos (a : num) : num :=
  match a with
  | Fin x => if Rltb x (-1) || Rltb 1 x then NaN else Fin (Ratan.acos x)
  | _ => NaN
  end.

Definition tan (a : num) : num :=
  match a with
  | Fin x => Fin (Rtrigo1.tan x)
  | _ => NaN
  end.

Definition sin (a : num) : num :=
  match a with
  | Fin x => Fin (Rtrigo_def.sin x)
  | _ => NaN
  end.

End Math.

Declare Scope num_scope.
Delimit Scope num_scope with num.
Bind Scope num_scope with num.
Infix "*" := mul : num_scope.
Infix "+" := add : num_scope.
Infix "-" := sub : num_scope.
Infix "/" := div : num_scope.
Infix "<" := lt : num_scope.
Infix ">" := gt : num_scope.
Infix "===" := seq (at level 70, no associativity) : num_scope.
Infix "!==" := sne (at level 70, no associativity) : num_scope.

(** ** Text: [trim], [parseFloat], [toFixed(3)], [toUpperCase] *)

Module Text.

(** White space and line terminators (the ASCII ones). *)
Definition isWhite (c : ascii) : bool :=
  let n := nat_of_ascii c in
  ((9 <=? n) && (n <=? 13) || (n =? 32))%nat.

Definition isDigit (c : ascii) : bool :=
  let n := nat_of_ascii c in ((48 <=? n) && (n <=? 57))%nat.

Definition digitVal (c : ascii) : Z := Z.of_nat (nat_of_ascii c - 48).

Fixpoint trimStart (s : string) : string :=
  match s with
  | String c r => if isWhite c then trimStart r else s
  | EmptyString => s
  end.

Fixpoint rev (s acc : string) : string :=
  match s with
  | String c r => rev r (String c acc)
  | EmptyString => acc
  end.

(** [s.trim()] *)
Definition trim (s : string) : string :=
  rev (trimStart (rev (trimStart s) "")) "".

(** A run of decimal digits: its value on top of [acc], its length, the rest. *)
Fixpoint readDigits (s : string) (acc : Z) (n : nat) : Z * nat * string :=
  match s with
  | String c r =>
      if isDigit c then readDigits r (10 * acc + digitVal c)%Z (S n)
      else (acc, n, s)
  | EmptyString => (acc, n, s)
  end.

(** ExponentPart: [e] or [E], an optional sign, at least one digit.  The result
    is 0 when there is no well-formed exponent at the head of [s]. *)
Definition readExponent (s : string) : Z :=
  match s with
  | String c r =>
      if (Ascii.eqb c "e" || Ascii.eqb c "E")%bool then
        let '(sgn, r') :=
          match r with
          | String "+" t => (1%Z, t)
          | String "-" t => ((-1)%Z, t)
          | _ => (1%Z, r)
          end in
        let '(v, n, _) := readDigits r' 0%Z 0%nat in
        if (n =? 0)%nat then 0%Z else (sgn * v)%Z
      else 0%Z
  | EmptyString => 0%Z
  end.

(** What the longest StrDecimalLiteral prefix denotes: an infinity, or
    [m * 10^e] with a sign. *)
Inductive literal : Type :=
| LitInfinity (neg : bool)
| LitDecimal (neg : bool) (m : Z) (e : Z).

Definition scanUnsigned (neg : bool) (s : string) : option literal :=
  if String.prefix "Infinity" s then Some (LitInfinity neg)
  else
    let '(ip, ni, r1) := readDigits s 0%Z 0%nat in
    match r1 with
    | String "." r2 =>
        let '(m, nf, r3) := readDigits r2 ip 0%nat in
        if (ni + nf =? 0)%nat then None
        else Some (LitDecimal neg m (readExponent r3 - Z.of_nat nf))
    | _ =>
        if (ni =? 0)%nat then None
        else Some (LitDecimal neg ip (readExponent r1))
    end.

(** The literal at the head of the string, leading white space skipped. *)
Definition scanLiteral (s : string) : option literal :=
  match trimStart s with
  | String "+" r => scanUnsigned false r
  | String "-" r => scanUnsigned true r
  | t => scanUnsigned false t
  end.

Definition decimalValue (m e : Z) : R :=
  if (0 <=? e)%Z then IZR (m * 10 ^ e) else IZR m / IZR (10 ^ (- e)).

Definition literalValue (l : option literal) : num :=
  match l with
  | None => NaN
  | Some (LitInfinity n) => Inf n
  | Some (LitDecimal n m e) =>
      Fin (if n then - decimalValue m e else decimalValue m e)
  end.

(** [parseFloat(s)] *)
Definition parseFloat (s : string) : num := literalValue (scanLiteral s).

Definition upperChar (c : ascii) : ascii :=
  let n := nat_of_ascii c in
  if ((97 <=? n) && (n <=? 122))%nat then ascii_of_nat (n - 32) else c.

(** [s.toUpperCase()] *)
Fixpoint toUpperCase (s : string) : string :=
  match s with
  | String c r => String (upperChar c) (toUpperCase r)
  | EmptyString => EmptyString
  end.

Fixpoint zeros (n : nat) : string :=
  match n with O => "" | S k => String "0" (zeros k) end.

(** The decimal digits of [n >= 0]. *)
Definition digitsOfZ (n : Z) : string :=
  NilZero.string_of_uint (N.to_uint (Z.to_N n)).

(** The digits of [n >= 0] with a point before the last three, padded with
    zeros on the left to at least four digits. *)
Definition fixed3Digits (n : Z) : string :=
  let m := digitsOfZ n in
  let k := String.length m in
  let m' := if (k <=? 3)%nat then zeros (4 - k) ++ m else m in
  let k' := String.length m' in
  substring 0 (k' - 3) m' ++ "." ++ substring (k' - 3) 3 m'.

Section ToFixed.

(** [Number::toString] writes a magnitude of at least 10^21 as
    [d.ddd...e+NN].  The digits before the [e] are those of the shortest
    decimal that reads back as the same double, which real arithmetic cannot
    express; they are left as a parameter.  The exponent is the number's
    decimal exponent. *)
Variable significandDigits : R -> string.

Definition numberToString (a : R) : string :=
  significandDigits a ++ "e+" ++ digitsOfZ (Int_part (ln a / ln 10)).

(** [x.toFixed(3)] *)
Definition toFixed3 (x : num) : string :=
  match x with
  | NaN => "NaN"
  | Inf n => if n then "-Infinity" else "Infinity"
  | Fin r =>
      let s := if Rltb r 0 then "-" else "" in
      let a := if Rltb r 0 then - r else r in
      let m := if Rltb a (10 ^ 21) then fixed3Digits (Int_part (a * 1000 + / 2))
               else numberToString a in
      s ++ m
  end.

End ToFixed.

End Text.

Export Text.

(** ** The page: four input elements, the status line, the session variables *)

(** The ids of the four inputs. *)
Inductive fieldId : Type := kw | kva | kvar | pf.

Definition idString (i : fieldId) : string :=
  match i with kw => "kw" | kva => "kva" | kvar => "kvar" | pf => "pf" end.

Definition fieldId_eqb (a b : fieldId) : bool :=
  match a, b with
  | kw, kw | kva, kva | kvar, kvar | pf, pf => true
  | _, _ => false
  end.

(** [id === 'lit'], on the id's string. *)
Definition idIs (i : fieldId) (lit : string) : bool := String.eqb (idString i) lit.

(** The part of an [<input>] the calculator reads and writes. *)
Record element : Type := mkElement {
  value : string;
  readOnly : bool;
  placeholder : string
}.

(** Everything [init]'s closure holds: the elements found by [querySelector],
    [statusDiv.textContent], and the two state variables. *)
Record state : Type := mkState {
  kwInput : element;
  kvaInput : element;
  kvarInput : element;
  pfInput : element;
  statusDiv : string;
  initialCalculationDone : bool;
  sourceFieldIds : list fieldId
}.

(** [const inputs = [kwInput, kvaInput, kvarInput, pfInput]], by id. *)
Definition inputs : list fieldId := [kw; kva; kvar; pf].

(** [inputs.find(el => el.id === id)] *)
Definition getInput (i : fieldId) (st : state) : element :=
  match i with
  | kw => kwInput st
  | kva => kvaInput st
  | kvar => kvarInput st
  | pf => pfInput st
  end.

Definition setInput (i : fieldId) (e : element) (st : state) : state :=
  match i with
  | kw => mkState e (kvaInput st) (kvarInput st) (pfInput st)
            (statusDiv st) (initialCalculationDone st) (sourceFieldIds st)
  | kva => mkState (kwInput st) e (kvarInput st) (pfInput st)
            (statusDiv st) (initialCalculationDone st) (sourceFieldIds st)
  | kvar => mkState (kwInput st) (kvaInput st) e (pfInput st)
            (statusDiv st) (initialCalculationDone st) (sourceFieldIds st)
  | pf => mkState (kwInput st) (kvaInput st) (kvarInput st) e
            (statusDiv st) (initialCalculationDone st) (sourceFieldIds st)
  end.

Definition setStatus (msg : string) (st : state) : state :=
  mkState (kwInput st) (kvaInput st) (kvarInput st) (pfInput st)
    msg (initialCalculationDone st) (sourceFieldIds st).

Definition setSession (done : bool) (src : list fieldId) (st : state) : state :=
  mkState (kwInput st) (kvaInput st) (kvarInput st) (pfInput st)
    (statusDiv st) done src.

Definition setValue (t : string) (e : element) : element :=
  mkElement t (readOnly e) (placeholder e).

(** A page as [init] finds it: empty editable inputs with the placeholders of
    the field list, no status, nothing computed yet. *)
Definition initialState : state :=
  mkState (mkElement "" false "Enter value") (mkElement "" false "Enter value")
          (mkElement "" false "Enter value") (mkElement "" false "Enter value (0-1)")
          "" false [].

(** The user (or a script) puts text [t] into input [i]. *)
Definition edit (i : fieldId) (t : string) (st : state) : state :=
  setInput i (setValue t (getInput i st)) st.

(** ** Plain objects keyed by field id, in insertion order *)

Definition object : Type := list (fieldId * num).

(** [o[k] = v] *)
Fixpoint setProp (o : object) (k : fieldId) (v : num) : object :=
  match o with
  | [] => [(k, v)]
  | (k', v') :: r =>
      if fieldId_eqb k k' then (k, v) :: r else (k', v') :: setProp r k v
  end.

(** [o.k]; a missing property is [undefined], which the arithmetic and the
    comparisons of the solver treat as they treat NaN. *)
Fixpoint getProp (o : object) (k : fieldId) : num :=
  match o with
  | [] => NaN
  | (k', v) :: r => if fieldId_eqb k k' then v else getProp r k
  end.

(** [Object.keys(o)] *)
Definition keys (o : object) : list fieldId := map fst o.

(** [ids.includes(i)] *)
Definition includes (ids : list fieldId) (i : fieldId) : bool :=
  existsb (fieldId_eqb i) ids.

Fixpoint insertSorted (k : fieldId) (l : list fieldId) : list fieldId :=
  match l with
  | [] => [k]
  | h :: t =>
      if String.leb (idString k) (idString h) then k :: l
      else h :: insertSorted k t
  end.

(** [ks.sort()]: the default sort, by the ids as strings. *)
Definition sortKeys (ks : list fieldId) : list fieldId :=
  fold_right insertSorted [] ks.

(** ** The six formulas *)

(** [let results = { kw: NaN, kva: NaN, kvar: NaN, pf: NaN }] *)
Record results : Type := mkResults {
  res_kw : num;
  res_kva : num;
  res_kvar : num;
  res_pf : num
}.

(** [results[id]] *)
Definition resultOf (i : fieldId) (r : results) : num :=
  match i with
  | kw => res_kw r
  | kva => res_kva r
  | kvar => res_kvar r
  | pf => res_pf r
  end.

(** How the [try] block ends: a thrown [Error] with its message, or the
    completed [results]. *)
Inductive outcome : Type :=
| Threw (message : string)
| Done (r : results).

Local Open Scope num_scope.

Definition case_kva_kw (o : object) : outcome :=
  let kw_ := getProp o kw in
  let kva_ := getProp o kva in
  if (kva_ === Fin 0) && (kw_ !== Fin 0)
  then Threw "kVA cannot be 0 if kW is non-zero."
  else if Math.abs kw_ > Math.abs kva_
  then Threw "Absolute kW cannot be greater than absolute kVA."
  else
    let pf_ := if kva_ === Fin 0 then (if kw_ === Fin 0 then Fin 1 else NaN)
               else kw_ / kva_ in
    let kvar_ := if kva_ * kva_ < kw_ * kw_ then Fin 0
                 else Math.sqrt (kva_ * kva_ - kw_ * kw_) in
    if isNaN pf_ then Threw "Calculation resulted in undefined PF."
    else Done (mkResults kw_ kva_ kvar_ pf_).

Definition case_kvar_kw (o : object) : outcome :=
  let kw_ := getProp o kw in
  let kvar_ := getProp o kvar in
  let kva_ := Math.sqrt (kw_ * kw_ + kvar_ * kvar_) in
  let pf_ := if kva_ === Fin 0 then (if kw_ === Fin 0 then Fin 1 else NaN)
             else kw_ / kva_ in
  if isNaN pf_ then Threw "Calculation resulted in undefined PF."
  else Done (mkResults kw_ kva_ kvar_ pf_).

Definition case_kw_pf (o : object) : outcome :=
  let kw_ := getProp o kw in
  let pf_ := getProp o pf in
  if (pf_ === Fin 0) && (kw_ !== Fin 0)
  then Threw "PF cannot be 0 if kW is non-zero."
  else if (pf_ < Fin 0) || (pf_ > Fin 1)
  then Threw "PF must be between 0 and 1."
  else
    let kva_ := if pf_ === Fin 0 then (if kw_ === Fin 0 then Fin 0 else Inf false)
                else kw_ / pf_ in
    if negb (isFinite kva_) then Threw "kVA is infinite (PF=0 with non-zero kW)."
    else
      let kvar_ := if kva_ * kva_ < kw_ * kw_ then Fin 0
                   else Math.sqrt (kva_ * kva_ - kw_ * kw_) in
      Done (mkResults kw_ kva_ kvar_ pf_).

Definition case_kva_kvar (o : object) : outcome :=
  let kva_ := getProp o kva in
  let kvar_ := getProp o kvar in
  if Math.abs kvar_ > Math.abs kva_
  then Threw "Absolute kVAR cannot be greater than absolute kVA."
  else
    let kw_ := if kva_ * kva_ < kvar_ * kvar_ then Fin 0
               else Math.sqrt (kva_ * kva_ - kvar_ * kvar_) in
    let pf_ := if kva_ === Fin 0 then (if kw_ === Fin 0 then Fin 1 else NaN)
               else kw_ / kva_ in
    if isNaN pf_ then Threw "Calculation resulted in undefined PF."
    else Done (mkResults kw_ kva_ kvar_ pf_).

Definition case_kva_pf (o : object) : outcome :=
  let kva_ := getProp o kva in
  let pf_ := getProp o pf in
  if (pf_ < Fin 0) || (pf_ > Fin 1)
  then Threw "PF must be between 0 and 1."
  else
    let kw_ := kva_ * pf_ in
    let kvar_ := if kva_ * kva_ < kw_ * kw_ then Fin 0
                 else Math.sqrt (kva_ * kva_ - kw_ * kw_) in
    Done (mkResults kw_ kva_ kvar_ pf_).

(** The threshold [1e-9] of the source. *)
Definition tiny : R := (1e-9)%R.

Definition case_kvar_pf (o : object) : outcome :=
  let kvar_ := getProp o kvar in
  let pf_ := getProp o pf in
  if (pf_ < Fin 0) || (pf_ > Fin 1)
  then Threw "PF must be between 0 and 1."
  else if (pf_ === Fin 1) && (kvar_ !== Fin 0)
  then Threw "PF cannot be 1 if kVAR is non-zero."
  else if (pf_ === Fin 0) && (kvar_ === Fin 0)
  then Done (mkResults (Fin 0) (Fin 0) kvar_ pf_)
  else if pf_ === Fin 1
  then Threw "Cannot calculate from kVAR and PF=1. Please provide kW or kVA instead."
  else if pf_ === Fin 0
  then Done (mkResults (Fin 0) (Math.abs kvar_) kvar_ pf_)
  else
    let angle := Math.acos pf_ in
    let kw_ := if Math.abs pf_ < Fin tiny then Fin 0 else kvar_ / Math.tan angle in
    let kva_ := if Math.abs (pf_ - Fin 1) < Fin tiny then Math.abs kw_
                else kvar_ / Math.sin angle in
    Done (mkResults kw_ kva_ kvar_ pf_).

(** The body of the [try]: sort the keys, build the pair key, dispatch. *)
Definition resolve (currentValidInputs : object) : outcome :=
  match sortKeys (keys currentValidInputs) with
  | [k0; k1] =>
      let pairKey := (idString k0 ++ "-" ++ idString k1)%string in
      if String.eqb pairKey "kva-kw" then case_kva_kw currentValidInputs
      else if String.eqb pairKey "kvar-kw" then case_kvar_kw currentValidInputs
      else if String.eqb pairKey "kw-pf" then case_kw_pf currentValidInputs
      else if String.eqb pairKey "kva-kvar" then case_kva_kvar currentValidInputs
      else if String.eqb pairKey "kva-pf" then case_kva_pf currentValidInputs
      else if String.eqb pairKey "kvar-pf" then case_kvar_pf currentValidInputs
      else Threw "Invalid input pair detected."
  | _ => Threw "Internal error: Expected 2 valid inputs."
  end.

Local Close Scope num_scope.

(** ** Helpers of [init] *)

(** [clearStatus()] *)
Definition clearStatus (st : state) : state := setStatus "" st.

(** [resetPlaceholder(inputElement)]; the [switch] is on the element's id. *)
Definition resetPlaceholder (i : fieldId) (e : element) : element :=
  if idIs i "pf" then mkElement (value e) (readOnly e) "Enter value (0-1)"
  else mkElement (value e) (readOnly e) "Enter value".

(** [setReadOnly(inputElement, isReadOnly)] *)
Definition setReadOnly (i : fieldId) (isReadOnly : bool) (e : element) : element :=
  let e1 := mkElement (value e) isReadOnly (placeholder e) in
  if isReadOnly && negb (String.eqb (value e1) "")
  then mkElement (value e1) (readOnly e1) "Calculated"
  else if negb isReadOnly
  then (if String.eqb (value e1) "" then resetPlaceholder i e1 else e1)
  else e1.

(** [inputs.forEach(input => ...)] with a callback that touches only its own
    element. *)
Definition forEachInput (f : fieldId -> element -> element) (st : state) : state :=
  fold_left (fun s i => setInput i (f i (getInput i s)) s) inputs st.

(** The callback of [resetToInitialState]. *)
Definition resetInput (i : fieldId) (e : element) : element :=
  let e1 :=
    if readOnly e
       || (negb (String.eqb (trim (value e)) "") && isNaN (parseFloat (value e)))
    then setValue "" e else e in
  resetPlaceholder i (setReadOnly i false e1).

(** [resetToInitialState()] *)
Definition resetToInitialState (st : state) : state :=
  forEachInput resetInput (setSession false [] st).

(** [clearFields()]; moving the focus is not modelled. *)
Definition clearFields (st : state) : state :=
  clearStatus
    (forEachInput
       (fun i e => resetPlaceholder i (setReadOnly i false (setValue "" e)))
       (setSession false [] st)).

(** [id.toUpperCase()] *)
Definition upperId (i : fieldId) : string := toUpperCase (idString i).

(** [(id === 'kw' || id === 'kva' || id === 'kvar')] *)
Definition isPower (i : fieldId) : bool := idIs i "kw" || idIs i "kva" || idIs i "kvar".

Local Open Scope num_scope.

(** ** Validation while locked: the [forEach] over [sourceFieldIds] *)

(** The accumulator is what the callback reads and writes outside itself:
    the page (through [statusDiv] and [resetToInitialState]),
    [proceedRecalc] and [sourceValues]. *)
Definition recalcStep (acc : state * bool * object) (i : fieldId)
  : state * bool * object :=
  let '(st, proceedRecalc, sourceValues) := acc in
  let inputElement := getInput i st in
  let v := parseFloat (value inputElement) in
  let '(st1, proceed1) :=
    if String.eqb (trim (value inputElement)) "" || isNaN v
    then (setStatus ("Please provide a valid number for " ++ upperId i ++ ".") st, false)
    else if isPower i && (v < Fin 0)
    then (setStatus ("Value for " ++ upperId i ++ " cannot be negative.") st, false)
    else if idIs i "pf" && ((v < Fin 0) || (v > Fin 1))
    then (setStatus "Power Factor (PF) must be between 0 and 1." st, false)
    else (st, proceedRecalc) in
  if negb proceed1 then (resetToInitialState st1, proceed1, sourceValues)
  else (st1, proceed1, setProp sourceValues i v).

(** ** Validation while unlocked: the [forEach] over [inputs] *)

(** The accumulator: the page (through [statusDiv]), [potentialValidInputs],
    [validCount] and [hasInvalidFormat]. *)
Definition initialStep (acc : state * object * nat * bool) (i : fieldId)
  : state * object * nat * bool :=
  let '(st, potentialValidInputs, validCount, hasInvalidFormat) := acc in
  let inputElement := getInput i st in
  let v := parseFloat (value inputElement) in
  if negb (String.eqb (trim (value inputElement)) "") then
    if negb (isNaN v) then
      if isPower i && (v < Fin 0)
      then (setStatus ("Value for " ++ upperId i ++ " cannot be negative.") st,
            potentialValidInputs, validCount, true)
      else if idIs i "pf" && ((v < Fin 0) || (v > Fin 1))
      then (setStatus "Power Factor (PF) must be between 0 and 1." st,
            potentialValidInputs, validCount, true)
      else (st, setProp potentialValidInputs i v, S validCount, hasInvalidFormat)
    else (setStatus ("Invalid number entered for " ++ upperId i ++ ".") st,
          potentialValidInputs, validCount, true)
  else acc.

(** [inputs.map(inp => inp.id).filter(id => !sourceFieldIds.includes(id))] *)
Definition targetsOf (src : list fieldId) : list fieldId :=
  filter (fun i => negb (includes src i)) inputs.

Section Calculator.

Variable significandDigits : R -> string.

(** The callback of [targetFieldIds.forEach] in the output update. *)
Definition showResult (r : results) (i : fieldId) (e : element) : element :=
  let outputValue := resultOf i r in
  if isNaN outputValue
  then resetPlaceholder i (setReadOnly i false (setValue "" e))
  else
    let outputValue' := if Math.abs outputValue < Fin tiny then Fin 0 else outputValue in
    setReadOnly i true (setValue (toFixed3 significandDigits outputValue') e).

Definition forEachId (ids : list fieldId) (f : fieldId -> element -> element)
  (st : state) : state :=
  fold_left (fun s i => setInput i (f i (getInput i s)) s) ids st.

(** From [let results = ...] to the end of [calculatePowerFactor]: the [try],
    its [catch], and the output update. *)
Definition calculateAndShow (currentValidInputs : object)
  (targetFieldIds : list fieldId) (st : state) : state :=
  match resolve currentValidInputs with
  | Threw message =>
      resetToInitialState (setStatus ("Calculation Error: " ++ message) st)
  | Done r =>
      let st1 := forEachId targetFieldIds (showResult r) st in
      let st2 := forEachId (sourceFieldIds st1) (fun i e => setReadOnly i false e) st1 in
      if negb (initialCalculationDone st2)
      then setSession true (sourceFieldIds st2) st2
      else st2
  end.

(** [calculatePowerFactor()] *)
Definition calculatePowerFactor (st0 : state) : state :=
  let st := clearStatus st0 in
  if initialCalculationDone st then
    let '(st1, proceedRecalc, sourceValues) :=
      fold_left recalcStep (sourceFieldIds st) (st, true, []) in
    if negb proceedRecalc then st1
    else calculateAndShow sourceValues (targetsOf (sourceFieldIds st1)) st1
  else
    let '(st1, potentialValidInputs, validCount, hasInvalidFormat) :=
      fold_left initialStep inputs (st, [], 0%nat, false) in
    if hasInvalidFormat then resetToInitialState st1
    else if negb (validCount =? 2)%nat then
      let st2 :=
        if (2 <? validCount)%nat
        then setStatus "Please provide exactly two values." st1
        else if (validCount =? 1)%nat
        then setStatus "Please provide one more value." st1
        else clearStatus st1 in
      resetToInitialState st2
    else
      let st2 := setSession (initialCalculationDone st1)
                   (keys potentialValidInputs) st1 in
      calculateAndShow potentialValidInputs (targetsOf (sourceFieldIds st2)) st2.

End Calculator.

(** ** Vocabulary of the specification *)

(** The four outcomes of validating one field's text. *)
Inductive validation : Type :=
| Empty
| InvalidFormat (i : fieldId)
| OutOfDomain (i : fieldId)
| Valid (i : fieldId) (v : num).

(** [0 <= v] and [v <= 1] on numbers. *)
Definition nonNegative (v : num) : bool := (Fin 0 < v) || (v === Fin 0).
Definition atMostOne (v : num) : bool := (v < Fin 1) || (v === Fin 1).

(** The domain of each quantity: the three powers are at least 0, the power
    factor lies in [0, 1]. *)
Definition inDomain (i : fieldId) (v : num) : bool :=
  match i with
  | pf => nonNegative v && atMostOne v
  | _ => nonNegative v
  end.

(** The validator of the specification, with "empty" read as the code tests
    it: nothing left after trimming white space. *)
Definition validate (i : fieldId) (text : string) : validation :=
  if String.eqb (trim text) "" then Empty
  else if isNaN (parseFloat text) then InvalidFormat i
  else if inDomain i (parseFloat text) then Valid i (parseFloat text)
  else OutOfDomain i.


(** The validation of input [i] as the page stands. *)
Definition fieldCheck (st : state) (i : fieldId) : validation :=
  validate i (value (getInput i st)).

Definition isValid (c : validation) : bool :=
  match c with Valid _ _ => true | _ => false end.

(** The message naming the field whose value is out of its domain. *)
Definition domainMessage (i : fieldId) : string :=
  if idIs i "pf" then "Power Factor (PF) must be between 0 and 1."
  else ("Value for " ++ upperId i ++ " cannot be negative.")%string.

(** What one outcome does to the accumulators of the unlocked validation
    loop: nothing for [Empty], a message and the error flag for a rejection,
    one more supplied value for [Valid]. *)
Definition recordValidation (c : validation) (acc : state * object * nat * bool)
  : state * object * nat * bool :=
  let '(st, supplied, count, rejected) := acc in
  match c with
  | Empty => acc
  | InvalidFormat i =>
      (setStatus ("Invalid number entered for " ++ upperId i ++ ".")%string st,
       supplied, count, true)
  | OutOfDomain i => (setStatus (domainMessage i) st, supplied, count, true)
  | Valid i v => (st, setProp supplied i v, S count, rejected)
  end.

(** The message of the locked validation loop for a source that is not
    valid. *)
Definition recalcMessage (i : fieldId) (c : validation) : string :=
  match c with
  | OutOfDomain _ => domainMessage i
  | _ => ("Please provide a valid number for " ++ upperId i ++ ".")%string
  end.


(** Unlocked: nothing computed yet and no sources.  Locked on [a], [b]: a
    calculation is done and the sources are these two, distinct. *)
Definition unlocked (st : state) : Prop :=
  initialCalculationDone st = false /\ sourceFieldIds st = [].

Definition lockedOn (a b : fieldId) (st : state) : Prop :=
  initialCalculationDone st = true /\ sourceFieldIds st = [a; b] /\ a <> b.

(** The text that is unparseable: not blank, and [parseFloat] gives NaN. *)
Definition unparseable (text : string) : bool :=
  negb (String.eqb (trim text) "") && isNaN (parseFloat text).

(** Where two pages differ at most in their status line. *)
Definition sameButStatus (s1 s2 : state) : Prop :=
  setStatus "" s1 = setStatus "" s2.

(** The placeholder [resetPlaceholder] gives input [i]. *)
Definition defaultPlaceholder (i : fieldId) : string :=
  if idIs i "pf" then "Enter value (0-1)" else "Enter value".

(** The values the page supplies: the valid fields, in the order of
    [inputs]. *)
Definition supplied (st : state) : object :=
  flat_map (fun i => match fieldCheck st i with Valid _ v => [(i, v)] | _ => [] end)
           inputs.

(** The message of the unlocked validation loop for a rejected field. *)
Definition rejectionMessage (c : validation) : option string :=
  match c with
  | InvalidFormat i => Some ("Invalid number entered for " ++ upperId i ++ ".")%string
  | OutOfDomain i => Some (domainMessage i)
  | _ => None
  end.

(** The message left by the last rejected field of the page, if any. *)
Definition lastRejection (st : state) : option string :=
  fold_left (fun m i => match rejectionMessage (fieldCheck st i) with
                        | Some x => Some x
                        | None => m
                        end) inputs None.

(** The status for a number of supplied values other than two. *)
Definition countMessage (n : nat) : string :=
  if (2 <? n)%nat then "Please provide exactly two values."
  else if (n =? 1)%nat then "Please provide one more value."
  else "".

(** Two pages locked on the same pair whose source inputs hold the same text
    and placeholder. *)
Definition sameSources (a b : fieldId) (s s' : state) : Prop :=
  lockedOn a b s /\ lockedOn a b s' /\
  forall i, i = a \/ i = b ->
    value (getInput i s) = value (getInput i s') /\
    placeholder (getInput i s) = placeholder (getInput i s').

(** The page locked on real power 300 and apparent power 500, as it is
    recomputed from [st]: 400 and 0.6 are shown whatever the two derived
    inputs of [st] held. *)
Definition page_300_500 (st : state) : state :=
  mkState (mkElement "300" false (placeholder (kwInput st)))
          (mkElement "500" false (placeholder (kvaInput st)))
          (mkElement "400.000" true "Calculated")
          (mkElement "0.600" true "Calculated")
          "" true [kw; kva].

(** A stand-in for the significand digits of magnitudes from 10^21 on, for
    pages that show no such number. *)
Definition noLargeDigits : R -> string := fun _ => "".

Section Sessions.

Variable significandDigits : R -> string.

(** The page after a resolution with results [r] from the sources [src]:
    sources editable, every other input showing its result. *)
Definition resolvedPage (r : results) (src : list fieldId) (st : state) : state :=
  let el i := if includes src i then setReadOnly i false (getInput i st)
              else showResult significandDigits r i (getInput i st) in
  mkState (el kw) (el kva) (el kvar) (el pf) (statusDiv st) true src.

(** The pages a session can show: the initial page, and what edits,
    recomputations and the clear button make of it. *)
Inductive reachable : state -> Prop :=
| reach_init : reachable initialState
| reach_edit i t st : reachable st -> reachable (edit i t st)
| reach_calc st :
    reachable st -> reachable (calculatePowerFactor significandDigits st)
| reach_clear st : reachable st -> reachable (clearFields st).

(** The text shown for result [v]: snapped to 0 under [1e-9], three
    decimals. *)
Definition displayed (v : num) : string :=
  toFixed3 significandDigits (if Math.abs v < Fin tiny then Fin 0 else v).

(** The two schedules of recomputation over a burst of edits: after every
    edit, or once when the burst is over. *)
Definition runPerKeystroke (edits : list (fieldId * string)) (st : state) : state :=
  fold_left
    (fun s e => calculatePowerFactor significandDigits (edit (fst e) (snd e) s))
    edits st.

Definition applyEdits (edits : list (fieldId * string)) (st : state) : state :=
  fold_left (fun s e => edit (fst e) (snd e) s) edits st.

Definition runDebounced (edits : list (fieldId * string)) (st : state) : state :=
  match edits with
  | [] => st
  | _ => calculatePowerFactor significandDigits (applyEdits edits st)
  end.

(** The pages the per-keystroke schedule passes through, the last one
    included. *)
Fixpoint tracePerKeystroke (edits : list (fieldId * string)) (st : state)
  : list state :=
  match edits with
  | [] => []
  | e :: r =>
      let s := calculatePowerFactor significandDigits (edit (fst e) (snd e) st) in
      s :: tracePerKeystroke r s
  end.

(** The recomputations before the last one are quiet: each leaves the page
    as the edit made it, up to the status line. *)
Fixpoint quietBurst (edits : list (fieldId * string)) (st : state) : Prop :=
  match edits with
  | [] => True
  | e :: rest =>
      match rest with
      | [] => True
      | _ =>
          let s := edit (fst e) (snd e) st in
          sameButStatus (calculatePowerFactor significandDigits s) s /\
          quietBurst rest (calculatePowerFactor significandDigits s)
      end
  end.

End Sessions.

(** ** Consistency of a result *)


(** The two messages that report a fault of the program rather than of the
    input. *)
Definition internalError (m : string) : Prop :=
  m = "Calculation Error: Internal error: Expected 2 valid inputs." \/
  m = "Calculation Error: Invalid input pair detected.".

(** ** [debounce] and the timers of the host *)

Module Debounce.
Section Debounce.

(** [func] acts on the program's state [St]; [A] is what one call passes
    ([...args]); [wait] is in milliseconds. *)
Context {A St : Type}.
Variables (func : A -> St -> St) (wait : nat).

(** A timer the host holds: the id [setTimeout] returned, when it is due,
    and the arguments its callback [later] closed over. *)
Record timer : Type := mkTimer {
  timerId : nat;
  due : nat;
  args : A
}.

(** The clock and timer table of the host, the [timeout] variable of the
    closure ([None] for [undefined]), and the program's state. *)
Record world : Type := mkWorld {
  now : nat;
  nextTimer : nat;
  timers : list timer;
  timeout : option nat;
  program : St
}.

(** [clearTimeout(id)]; an id that is [undefined] or not in the table does
    nothing. *)
Definition clearTimeout (id : option nat) (w : world) : world :=
  match id with
  | None => w
  | Some n =>
      mkWorld (now w) (nextTimer w)
              (filter (fun t => negb (timerId t =? n)%nat) (timers w))
              (timeout w) (program w)
  end.

(** [setTimeout(later, delay)], returning the new id. *)
Definition setTimeout (a : A) (delay : nat) (w : world) : nat * world :=
  (nextTimer w,
   mkWorld (now w) (S (nextTimer w))
           (timers w ++ [mkTimer (nextTimer w) (now w + delay) a])
           (timeout w) (program w)).

(** [later()] *)
Definition later (a : A) (w : world) : world :=
  let w1 := clearTimeout (timeout w) w in
  mkWorld (now w1) (nextTimer w1) (timers w1) (timeout w1) (func a (program w1)).

(** [executedFunction(...args)] *)
Definition executedFunction (a : A) (w : world) : world :=
  let w1 := clearTimeout (timeout w) w in
  let '(id, w2) := setTimeout a wait w1 in
  mkWorld (now w2) (nextTimer w2) (timers w2) (Some id) (program w2).

(** The timer the host runs next: the earliest due, the oldest among
    equals. *)
Fixpoint earliest (l : list timer) : option timer :=
  match l with
  | [] => None
  | x :: r =>
      match earliest r with
      | Some y => if (due y <? due x)%nat then Some y else Some x
      | None => Some x
      end
  end.

(** The host runs the timers due by [t], one at a time: the timer leaves the
    table, the clock stands at its due time, its callback runs. *)
Fixpoint runTimers (fuel t : nat) (w : world) : world :=
  match fuel with
  | O => w
  | S k =>
      match earliest (timers w) with
      | Some x =>
          if (due x <=? t)%nat
          then runTimers k t
                 (later (args x)
                    (mkWorld (Nat.max (now w) (due x)) (nextTimer w)
                       (filter (fun y => negb (timerId y =? timerId x)%nat) (timers w))
                       (timeout w) (program w)))
          else w
      | None => w
      end
  end.

(** Time passes until [t]; every callback removes its own timer and adds
    none, so the size of the table bounds the number of runs. *)
Definition advance (t : nat) (w : world) : world :=
  let w1 := runTimers (List.length (timers w)) t w in
  mkWorld (Nat.max (now w1) t) (nextTimer w1) (timers w1) (timeout w1) (program w1).

(** The world as the script finds it: no timer, [timeout] undefined. *)
Definition start (s : St) : world := mkWorld 0 0 [] None s.

(** One call of the debounced function: when it happens, what the event
    that causes it has done to the program's state before the listener
    runs, and the arguments. *)
Record call : Type := mkCall {
  callTime : nat;
  callBefore : St -> St;
  callArgs : A
}.

Definition callAt (c : call) (w : world) : world :=
  let w1 := advance (callTime c) w in
  executedFunction (callArgs c)
    (mkWorld (now w1) (nextTimer w1) (timers w1) (timeout w1)
             (callBefore c (program w1))).

Definition runCalls (calls : list call) (w : world) : world :=
  fold_left (fun w c => callAt c w) calls w.

(** Calls at increasing times, each less than [wait] after the one before
    (the first after [t]): one burst. *)
Fixpoint burstFrom (t : nat) (calls : list call) : Prop :=
  match calls with
  | [] => True
  | c :: r => (t <= callTime c < t + wait)%nat /\ burstFrom (callTime c) r
  end.

(** Calls each at least [wait] after the one before. *)
Fixpoint spacedFrom (t : nat) (calls : list call) : Prop :=
  match calls with
  | [] => True
  | c :: r => (t + wait <= callTime c)%nat /\ spacedFrom (callTime c) r
  end.

(** No timer is pending, or only the one the closure holds. *)
Definition settled (w : world) : Prop :=
  timers w = [] \/
  exists id d a, timers w = [mkTimer id d a] /\ timeout w = Some id.

(** The world just after call [c0]: one timer, due [wait] later. *)
Definition armed (c0 : call) (w : world) : Prop :=
  now w = callTime c0 /\
  exists id, timers w = [mkTimer id (callTime c0 + wait) (callArgs c0)]
             /\ timeout w = Some id.

(** The worlds a run of the script passes through. *)
Inductive history : world -> Prop :=
| hist_start s : history (start s)
| hist_call c w : history w -> history (callAt c w)
| hist_advance t w : history w -> history (advance t w).

End Debounce.
End Debounce.

(** ** The listeners of [init] *)

Section Listeners.

Variable significandDigits : R -> string.

(** An [input] event at time [t]: the browser has put [text] into input
    [i], then the listener [debounce(calculatePowerFactor, 500)] runs; the
    event object it receives is not used. *)
Definition inputEvent (t : nat) (i : fieldId) (text : string)
  : @Debounce.call unit state :=
  Debounce.mkCall t (edit i text) tt.

Definition inputEvents (typed : list (nat * (fieldId * string)))
  : list (@Debounce.call unit state) :=
  map (fun e => inputEvent (fst e) (fst (snd e)) (snd (snd e))) typed.

(** The page after the events [typed], once the clock has reached [t]. *)
Definition pageAfter (typed : list (nat * (fieldId * string))) (t : nat)
  (st : state) : state :=
  Debounce.program
    (Debounce.advance (fun _ => calculatePowerFactor significandDigits) t
       (Debounce.runCalls (fun _ => calculatePowerFactor significandDigits) 500
          (inputEvents typed) (Debounce.start st))).

End Listeners.

(** ** The caller of [init]: the page shell of [main.js] *)

Module Shell.

(** What the shell uses of a registered calculator: its [id], and whether
    its [init] is a function. *)
Record calculator : Type := mkCalculator {
  moduleId : string;
  hasInit : bool
}.

(** A [section.calculator-section]: its id, whether its class list holds
    [active], and whether [dataset.initialized] is ['true']. *)
Record sectionElement : Type := mkSection {
  sectionId : string;
  sectionActive : bool;
  initialized : bool
}.

(** A navigation button: [dataset.calculatorId] and the class [active]. *)
Record navButton : Type := mkButton {
  calculatorId : string;
  buttonActive : bool
}.

(** The document, in document order, and the calls of [init] made so far,
    by calculator id.  The sections are taken to be the only elements that
    carry a calculator's id. *)
Record document : Type := mkDocument {
  sections : list sectionElement;
  navButtons : list navButton;
  initCalls : list string
}.

(** A change to the first element that matches, as made through the one
    element [getElementById] or [querySelector] returns. *)
Fixpoint updateFirst {X : Type} (p : X -> bool) (f : X -> X) (l : list X) : list X :=
  match l with
  | [] => []
  | x :: r => if p x then f x :: r else x :: updateFirst p f r
  end.

Section Shell.

Variable calculators : list calculator.

(** [document.getElementById(calculatorId)] *)
Definition getElementById (id : string) (d : document) : option sectionElement :=
  find (fun s => String.eqb (sectionId s) id) (sections d).

(** [initializeCalculator(calculatorId)] *)
Definition initializeCalculator (id : string) (d : document) : document :=
  match getElementById id d with
  | None => d
  | Some sec =>
      if initialized sec then d
      else
        match find (fun c => String.eqb (moduleId c) id) calculators with
        | Some calculatorModule =>
            if hasInit calculatorModule
            then mkDocument
                   (updateFirst (fun s => String.eqb (sectionId s) id)
                      (fun s => mkSection (sectionId s) (sectionActive s) true)
                      (sections d))
                   (navButtons d) (initCalls d ++ [id])
            else d
        | None => d
        end
  end.

(** [switchCalculatorView(calculatorId)] *)
Definition switchCalculatorView (id : string) (d : document) : document :=
  let hidden :=
    map (fun s => mkSection (sectionId s) false (initialized s)) (sections d) in
  let deactivated := map (fun b => mkButton (calculatorId b) false) (navButtons d) in
  let shown :=
    updateFirst (fun s => String.eqb (sectionId s) id)
      (fun s => mkSection (sectionId s) true (initialized s)) hidden in
  let activated :=
    updateFirst (fun b => String.eqb (calculatorId b) id)
      (fun b => mkButton (calculatorId b) true) deactivated in
  initializeCalculator id (mkDocument shown activated (initCalls d)).

(** The callback of [calculators.forEach] that builds the page: a button
    and a section per calculator, the first one active and initialised. *)
Definition addCalculator (acc : document * nat) (c : calculator)
  : document * nat :=
  let '(d, index) := acc in
  let isFirst := (index =? 0)%nat in
  let d1 :=
    mkDocument (sections d ++ [mkSection (moduleId c) isFirst false])
               (navButtons d ++ [mkButton (moduleId c) isFirst])
               (initCalls d) in
  (if isFirst then initializeCalculator (moduleId c) d1 else d1, S index).

(** The document once [DOMContentLoaded] has been handled, the two
    containers being there. *)
Definition loaded : document :=
  fst (fold_left addCalculator calculators (mkDocument [] [] [], 0%nat)).

(** The document after clicks on navigation buttons with these ids. *)
Definition afterClicks (clicks : list string) (d : document) : document :=
  fold_left (fun d id => switchCalculatorView id d) clicks d.

(** Every recorded call of [init] has left its mark: the section found
    under that id is initialised. *)
Definition initsMarked (d : document) : Prop :=
  forall id, In id (initCalls d) ->
    exists sec, getElementById id d = Some sec /\ initialized sec = true.

(** The marks that decide whether [init] may run: each section's id with
    its [initialized] flag, in document order. *)
Definition marks (l : list sectionElement) : list (string * bool) :=
  map (fun s => (sectionId s, initialized s)) l.

(** What a session keeps true of the calls of [init]: each left its mark,
    none is repeated, each was for a registered calculator with an [init]. *)
Definition initsSound (d : document) : Prop :=
  initsMarked d /\ NoDup (initCalls d) /\
  forall id, In id (initCalls d) ->
    exists c, In c calculators /\ moduleId c = id /\ hasInit c = true.

End Shell.
End Shell.

(** * Properties *)

(** ** Numbers *)

Lemma Rltb_true (x y : R) : (x < y)%R -> Rltb x y = true.
Proof. intros H. unfold Rltb. destruct (Rlt_dec x y); [reflexivity | contradiction]. Qed.

Lemma Rltb_false (x y : R) : (y <= x)%R -> Rltb x y = false.
Proof. intros H. unfold Rltb. destruct (Rlt_dec x y); [lra | reflexivity]. Qed.

Lemma Rltb_spec (x y : R) : Rltb x y = true <-> (x < y)%R.
Proof. unfold Rltb. destruct (Rlt_dec x y); split; intros; congruence || lra. Qed.

Lemma Reqb_true (x y : R) : x = y -> Reqb x y = true.
Proof. intros H. unfold Reqb. destruct (Req_dec_T x y); [reflexivity | contradiction]. Qed.

Lemma Reqb_false (x y : R) : x <> y -> Reqb x y = false.
Proof. intros H. unfold Reqb. destruct (Req_dec_T x y); [contradiction | reflexivity]. Qed.

Lemma Reqb_spec (x y : R) : Reqb x y = true <-> x = y.
Proof. unfold Reqb. destruct (Req_dec_T x y); split; intros; congruence. Qed.

Lemma tiny_pos : (0 < tiny)%R.
Proof. unfold tiny. lra. Qed.

(** For a number that is not NaN the tests the loops make ([v < 0], and for
    the power factor [v < 0 || v > 1]) are the negation of the domain. *)
Lemma nonNegative_lt (v : num) : isNaN v = false -> nonNegative v = negb (v < Fin 0).
Proof.
  destruct v as [| [|] | x]; simpl; try reflexivity; try discriminate.
  intros _. unfold nonNegative; simpl.
  unfold Rltb, Reqb.
  destruct (Rlt_dec 0 x), (Req_dec_T x 0), (Rlt_dec x 0); simpl; try reflexivity; lra.
Qed.

Lemma atMostOne_gt (v : num) : isNaN v = false -> atMostOne v = negb (v > Fin 1).
Proof.
  destruct v as [| [|] | x]; simpl; try reflexivity; try discriminate.
  intros _. unfold atMostOne, gt; simpl.
  unfold Rltb, Reqb.
  destruct (Rlt_dec x 1), (Req_dec_T x 1), (Rlt_dec 1 x); simpl; try reflexivity; lra.
Qed.

Lemma inDomain_power (i : fieldId) (v : num) :
  isNaN v = false -> isPower i = true -> inDomain i v = negb (v < Fin 0).
Proof. intros Hv Hi. destruct i; try discriminate; apply nonNegative_lt, Hv. Qed.

Lemma inDomain_pf (v : num) :
  isNaN v = false -> inDomain pf v = negb ((v < Fin 0) || (v > Fin 1)).
Proof.
  intros Hv. simpl. rewrite nonNegative_lt, atMostOne_gt by exact Hv.
  now rewrite negb_orb.
Qed.

(** ** Text *)

(** The builtins on a few texts. *)

Example trim_both_ends : trim "  a b  " = "a b".
Proof. reflexivity. Qed.

Example scan_natural : scanLiteral "500" = Some (LitDecimal false 500 0).
Proof. reflexivity. Qed.

Example scan_numeric_prefix : scanLiteral "  -0.6abc" = Some (LitDecimal true 6 (-1)).
Proof. reflexivity. Qed.

Example scan_fraction_and_exponent : scanLiteral ".5e-3" = Some (LitDecimal false 5 (-4)).
Proof. reflexivity. Qed.

Example scan_infinity : scanLiteral "-Infinity" = Some (LitInfinity true).
Proof. reflexivity. Qed.

Example scan_letters : scanLiteral "abc" = None.
Proof. reflexivity. Qed.

Example scan_lone_point : scanLiteral "." = None.
Proof. reflexivity. Qed.

Example upper_kvar : toUpperCase "kvar" = "KVAR".
Proof. reflexivity. Qed.

Example fixed3Digits_600 : fixed3Digits 600 = "0.600".
Proof. reflexivity. Qed.

Example sortKeys_kw_kva : sortKeys [kw; kva] = [kva; kw].
Proof. reflexivity. Qed.

Example sortKeys_all : sortKeys [pf; kw; kvar; kva] = [kva; kvar; kw; pf].
Proof. reflexivity. Qed.

Lemma append_nonempty_r (s t : string) : t <> "" -> (s ++ t)%string <> "".
Proof. destruct s; simpl; [tauto | discriminate]. Qed.

Lemma fixed3Digits_nonempty (n : Z) : fixed3Digits n <> "".
Proof. unfold fixed3Digits. apply append_nonempty_r. discriminate. Qed.

Section TextFacts.

Variable significandDigits : R -> string.

Lemma toFixed3_nonempty (x : num) : toFixed3 significandDigits x <> "".
Proof.
  destruct x as [| [|] | r]; try discriminate.
  unfold toFixed3. apply append_nonempty_r.
  match goal with |- context [if ?c then fixed3Digits _ else _] => destruct c end.
  - apply fixed3Digits_nonempty.
  - unfold numberToString. apply append_nonempty_r. discriminate.
Qed.

(** [toFixed(3)] of a magnitude under 10^21 whose thousandfold rounds to [n]. *)
Lemma toFixed3_rounds (x : R) (n : Z) :
  (0 <= x < 10 ^ 21)%R ->
  (IZR n <= x * 1000 + / 2 < IZR n + 1)%R ->
  toFixed3 significandDigits (Fin x) = fixed3Digits n.
Proof.
  intros Hx Hn. unfold toFixed3.
  rewrite (Rltb_false x 0) by lra.
  rewrite (Rltb_true x (10 ^ 21)) by lra.
  replace (Int_part (x * 1000 + / 2)) with n by (apply Int_part_spec; lra).
  reflexivity.
Qed.


End TextFacts.

(** ** The page *)

Arguments trim : simpl never.
Arguments parseFloat : simpl never.
Arguments toFixed3 : simpl never.
Arguments resolve : simpl never.

Lemma forEachInput_eq f st :
  forEachInput f st =
  mkState (f kw (kwInput st)) (f kva (kvaInput st)) (f kvar (kvarInput st))
          (f pf (pfInput st)) (statusDiv st) (initialCalculationDone st)
          (sourceFieldIds st).
Proof. reflexivity. Qed.

Lemma resetInput_eq i e :
  resetInput i e =
  mkElement (if readOnly e || unparseable (value e) then "" else value e)
            false (defaultPlaceholder i).
Proof.
  unfold resetInput, unparseable, defaultPlaceholder.
  destruct (readOnly e || _); destruct i; cbn;
  try reflexivity; destruct (String.eqb (value e) ""); reflexivity.
Qed.

Lemma resetInput_idem i e : resetInput i (resetInput i e) = resetInput i e.
Proof.
  rewrite !resetInput_eq. simpl.
  destruct (readOnly e || unparseable (value e)) eqn:E.
  - reflexivity.
  - apply orb_false_elim in E. destruct E as [_ E]. now rewrite E.
Qed.

Lemma reset_idem st : resetToInitialState (resetToInitialState st) = resetToInitialState st.
Proof.
  unfold resetToInitialState. rewrite !forEachInput_eq. simpl.
  now rewrite !resetInput_idem.
Qed.

Lemma reset_setStatus m st :
  resetToInitialState (setStatus m st) = setStatus m (resetToInitialState st).
Proof. reflexivity. Qed.

Lemma initialStep_validate st o n h i :
  initialStep (st, o, n, h) i = recordValidation (fieldCheck st i) (st, o, n, h).
Proof.
  unfold initialStep, fieldCheck, validate.
  destruct (String.eqb (trim (value (getInput i st))) ""); [reflexivity|].
  destruct (isNaN (parseFloat (value (getInput i st)))) eqn:En; [reflexivity|].
  destruct i.
  all: try (match goal with |- context [inDomain ?i ?v] =>
              rewrite (inDomain_power i v En eq_refl) end;
            destruct (lt (parseFloat _) (Fin 0)); reflexivity).
  rewrite (inDomain_pf _ En).
  destruct (lt (parseFloat _) (Fin 0) || gt (parseFloat _) (Fin 1)); reflexivity.
Qed.

Lemma recalcStep_validate st p o i :
  recalcStep (st, p, o) i =
  match fieldCheck st i with
  | Valid _ v =>
      if p then (st, true, setProp o i v) else (resetToInitialState st, false, o)
  | c => (resetToInitialState (setStatus (recalcMessage i c) st), false, o)
  end.
Proof.
  unfold recalcStep, fieldCheck, validate.
  destruct (String.eqb (trim (value (getInput i st))) ""); [reflexivity|].
  destruct (isNaN (parseFloat (value (getInput i st)))) eqn:En; [reflexivity|].
  destruct i.
  all: try (match goal with |- context [inDomain ?i ?v] =>
              rewrite (inDomain_power i v En eq_refl) end;
            destruct (lt (parseFloat _) (Fin 0)); destruct p; reflexivity).
  rewrite (inDomain_pf _ En).
  destruct (lt (parseFloat _) (Fin 0) || gt (parseFloat _) (Fin 1)); destruct p; reflexivity.
Qed.

Lemma recordValidation_check c acc i :
  fieldCheck (fst (fst (fst (recordValidation c acc)))) i =
  fieldCheck (fst (fst (fst acc))) i.
Proof. destruct acc as [[[st o] n] h], c, i; reflexivity. Qed.

Lemma initialStep_record acc i :
  initialStep acc i = recordValidation (fieldCheck (fst (fst (fst acc))) i) acc.
Proof. destruct acc as [[[st o] n] h]. apply initialStep_validate. Qed.

Lemma unlockedLoop_eq st :
  fold_left initialStep inputs (st, [], 0%nat, false) =
  recordValidation (fieldCheck st pf)
    (recordValidation (fieldCheck st kvar)
       (recordValidation (fieldCheck st kva)
          (recordValidation (fieldCheck st kw) (st, [], 0%nat, false)))).
Proof.
  unfold inputs. cbn [fold_left].
  rewrite !initialStep_record, !recordValidation_check. reflexivity.
Qed.

Section Transitions.

Variable sd : R -> string.

Lemma fieldCheck_cases st i :
  fieldCheck st i = Empty \/ fieldCheck st i = InvalidFormat i \/
  fieldCheck st i = OutOfDomain i \/ exists v, fieldCheck st i = Valid i v.
Proof.
  unfold fieldCheck, validate.
  destruct (String.eqb _ ""); [now left|].
  destruct (isNaN _); [now right; left|].
  destruct (inDomain _ _); [right; right; right; eauto | now right; right; left].
Qed.

Lemma calculateAndShow_done o r a b st :
  a <> b -> sourceFieldIds st = [a; b] -> resolve o = Done r ->
  calculateAndShow sd o (targetsOf [a; b]) st = resolvedPage sd r [a; b] st.
Proof.
  intros Hab Hsrc Hr. unfold calculateAndShow. rewrite Hr.
  destruct st as [e1 e2 e3 e4 s d src]. simpl in Hsrc. subst src.
  destruct a, b; try congruence; destruct d; reflexivity.
Qed.

Lemma calculateAndShow_threw o m t st :
  resolve o = Threw m ->
  calculateAndShow sd o t st =
  setStatus ("Calculation Error: " ++ m) (resetToInitialState st).
Proof. intros Hr. unfold calculateAndShow. now rewrite Hr. Qed.

Ltac case_check st i :=
  let H := fresh "H" in let v := fresh "v" in
  destruct (fieldCheck_cases st i) as [H|[H|[H|[v H]]]]; rewrite H.

Lemma calc_unlocked st :
  initialCalculationDone st = false ->
  calculatePowerFactor sd st =
  match lastRejection st with
  | Some m => setStatus m (resetToInitialState st)
  | None =>
      match supplied st with
      | [(a, va); (b, vb)] =>
          calculateAndShow sd [(a, va); (b, vb)] (targetsOf [a; b])
            (setSession false [a; b] (clearStatus st))
      | l => setStatus (countMessage (List.length l)) (resetToInitialState st)
      end
  end.
Proof.
  intros Hd. unfold calculatePowerFactor.
  change (initialCalculationDone (clearStatus st)) with (initialCalculationDone st).
  rewrite Hd, unlockedLoop_eq.
  change (fieldCheck (clearStatus st)) with (fieldCheck st).
  unfold lastRejection, supplied, inputs. cbn [fold_left flat_map].
  case_check st kw; case_check st kva; case_check st kvar; case_check st pf;
  clear - Hd; destruct st; cbn in Hd; subst; reflexivity.
Qed.

Lemma setProp_pair a b va vb :
  a <> b -> setProp (setProp [] a va) b vb = [(a, va); (b, vb)].
Proof. intros H. destruct a, b; try congruence; reflexivity. Qed.

Lemma calc_locked st a b :
  lockedOn a b st ->
  calculatePowerFactor sd st =
  match fieldCheck st a with
  | Valid _ va =>
      match fieldCheck st b with
      | Valid _ vb =>
          calculateAndShow sd [(a, va); (b, vb)] (targetsOf [a; b]) (clearStatus st)
      | c => setStatus (recalcMessage b c) (resetToInitialState st)
      end
  | c =>
      setStatus
        match fieldCheck (resetToInitialState st) b with
        | Valid _ _ => recalcMessage a c
        | c' => recalcMessage b c'
        end
        (resetToInitialState st)
  end.
Proof.
  intros (Hd & Hs & Hab). unfold calculatePowerFactor. cbv zeta.
  change (initialCalculationDone (clearStatus st)) with (initialCalculationDone st).
  change (sourceFieldIds (clearStatus st)) with (sourceFieldIds st).
  rewrite Hd, Hs. cbn [fold_left].
  rewrite (recalcStep_validate _ _ _ a).
  change (fieldCheck (clearStatus st)) with (fieldCheck st).
  destruct (fieldCheck_cases st a) as [H|[H|[H|[va H]]]]; rewrite H.
  4: { rewrite recalcStep_validate.
       change (fieldCheck (clearStatus st)) with (fieldCheck st).
       destruct (fieldCheck_cases st b) as [H'|[H'|[H'|[vb H']]]]; rewrite H';
       try reflexivity.
       rewrite (setProp_pair a b va vb Hab). cbn [negb].
       change (sourceFieldIds (clearStatus st)) with (sourceFieldIds st).
       now rewrite Hs. }
  all: rewrite recalcStep_validate, !reset_setStatus;
    change (fieldCheck (setStatus ?m (resetToInitialState (clearStatus st))) b)
      with (fieldCheck (resetToInitialState st) b);
    destruct (fieldCheck_cases (resetToInitialState st) b) as [H'|[H'|[H'|[vb H']]]];
    rewrite H'; cbn [negb]; rewrite ?reset_setStatus, reset_idem; reflexivity.
Qed.

End Transitions.

Local Open Scope R_scope.

(** ** The resolver on finite values *)

Lemma resolve_pair a b va vb :
  a <> b ->
  resolve [(a, va); (b, vb)] =
  match a, b with
  | kw, kva | kva, kw => case_kva_kw
  | kw, kvar | kvar, kw => case_kvar_kw
  | kw, pf | pf, kw => case_kw_pf
  | kva, kvar | kvar, kva => case_kva_kvar
  | kva, pf | pf, kva => case_kva_pf
  | _, _ => case_kvar_pf
  end [(a, va); (b, vb)].
Proof. intros H. destruct a, b; try congruence; reflexivity. Qed.

Lemma Rabs_le_sqr (x y : R) : Rabs x <= Rabs y -> x * x <= y * y.
Proof.
  unfold Rabs. destruct (Rcase_abs x), (Rcase_abs y); nra.
Qed.

Lemma Rabs_zero_le (x : R) : Rabs x <= Rabs 0 -> x = 0.
Proof. rewrite Rabs_R0. unfold Rabs. destruct (Rcase_abs x); lra. Qed.

Ltac js_unfold :=
  unfold gt, sne, sub;
  cbn [lt seq mul add neg div Math.abs Math.sqrt isNaN isFinite].



(** [{kva, kw}] *)
Lemma case_kva_kw_done (s p : R) o :
  getProp o kva = Fin s -> getProp o kw = Fin p ->
  Rabs p <= Rabs s ->
  case_kva_kw o =
  Done (mkResults (Fin p) (Fin s) (Fin (sqrt (s * s - p * p)))
          (Fin (if Reqb s 0 then 1 else p / s))).
Proof.
  intros Hs Hp H. unfold case_kva_kw. rewrite Hs, Hp.
  pose proof (Rabs_le_sqr _ _ H) as Hsq.
  js_unfold.
  rewrite (Rltb_false (Rabs s)) by exact H.
  rewrite (Rltb_false (s * s) (p * p)) by lra.
  rewrite (Rltb_false (s * s + - (p * p))) by lra.
  replace (s * s + - (p * p)) with (s * s - p * p) by lra.
  destruct (Req_dec_T s 0) as [E|E].
  - rewrite (Reqb_true s 0 E). subst s.
    rewrite (Rabs_zero_le p H).
    rewrite Reqb_true by reflexivity. reflexivity.
  - rewrite (Reqb_false s 0 E). reflexivity.
Qed.







Lemma case_kvar_pf_range (q f : R) o :
  getProp o kvar = Fin q -> getProp o pf = Fin f ->
  f < 0 \/ 1 < f ->
  case_kvar_pf o = Threw "PF must be between 0 and 1.".
Proof.
  intros Hq Hf H. unfold case_kvar_pf. rewrite Hq, Hf. js_unfold.
  destruct H; [rewrite (Rltb_true f 0) by lra | rewrite (Rltb_true 1 f) by lra];
  now rewrite ?orb_true_r.
Qed.





(** ** Domains of the results *)

Lemma inDomain_Fin i x :
  inDomain i (Fin x) = true <-> 0 <= x /\ (i = pf -> x <= 1).
Proof.
  assert (Hn : nonNegative (Fin x) = true <-> 0 <= x).
  { unfold nonNegative. cbn [lt seq]. rewrite orb_true_iff, Rltb_spec, Reqb_spec. lra. }
  assert (Ho : atMostOne (Fin x) = true <-> x <= 1).
  { unfold atMostOne. cbn [lt seq]. rewrite orb_true_iff, Rltb_spec, Reqb_spec. lra. }
  destruct i; cbn [inDomain]; rewrite ?andb_true_iff, ?Hn, ?Ho;
    intuition (try discriminate; auto).
Qed.

Lemma inDomain_Fin_power i x : i <> pf -> 0 <= x -> inDomain i (Fin x) = true.
Proof. intros Hi Hx. apply inDomain_Fin. split; [exact Hx | contradiction]. Qed.

Lemma inDomain_Fin_pf x : 0 <= x <= 1 -> inDomain pf (Fin x) = true.
Proof. intros Hx. apply inDomain_Fin. split; [lra | intros; lra]. Qed.




(** The results of each case are in their domains when the inputs are. *)











(** ** Round trip *)




(** ** The pair of reactive power and power factor *)




(** ** Concrete texts *)

Lemma validate_blank i : validate i "" = Empty.
Proof. reflexivity. Qed.

(** The text of a natural number, in the domain of field [i]. *)
Lemma validate_natural i s m :
  scanLiteral s = Some (LitDecimal false m 0) ->
  String.eqb (trim s) "" = false ->
  (0 <= m)%Z -> (i = pf -> (m <= 1)%Z) ->
  validate i s = Valid i (Fin (IZR m)).
Proof.
  intros Hs Ht Hm Hpf. unfold validate, parseFloat. rewrite Ht, Hs.
  cbn [literalValue isNaN]. unfold decimalValue.
  change (0 <=? 0)%Z with true. cbv iota.
  rewrite Z.pow_0_r, Z.mul_1_r.
  assert (H0 : 0 <= IZR m) by (apply IZR_le; exact Hm).
  assert (Hn : nonNegative (Fin (IZR m)) = true).
  { unfold nonNegative. cbn [lt seq].
    destruct (Req_dec_T (IZR m) 0) as [E|E].
    - rewrite (Reqb_true _ _ E). apply orb_true_r.
    - rewrite (Rltb_true 0 (IZR m)) by lra. reflexivity. }
  destruct i; cbn [inDomain]; rewrite Hn; try reflexivity.
  assert (H1 : IZR m <= 1) by (apply IZR_le; auto).
  unfold atMostOne. cbn [lt seq andb].
  destruct (Req_dec_T (IZR m) 1) as [E|E].
  - rewrite (Reqb_true _ _ E). now rewrite orb_true_r.
  - rewrite (Rltb_true (IZR m) 1) by lra. reflexivity.
Qed.

(** The text of a decimal literal, in the domain of field [i]. *)
Lemma validate_decimal i s m e :
  scanLiteral s = Some (LitDecimal false m e) ->
  String.eqb (trim s) "" = false ->
  inDomain i (Fin (decimalValue m e)) = true ->
  validate i s = Valid i (Fin (decimalValue m e)).
Proof.
  intros Hs Ht Hd. unfold validate, parseFloat. rewrite Ht, Hs.
  cbn [literalValue isNaN]. now rewrite Hd.
Qed.

(** Read the fields of a page whose texts are known. *)
Ltac read_fields :=
  repeat match goal with
  | |- context [fieldCheck ?s ?i] =>
      let t := eval cbn in (value (getInput i s)) in
      change (fieldCheck s i) with (validate i t)
  end;
  rewrite ?validate_blank.

(** ** Outcomes of a recomputation *)

Lemma supplied_pair st a b va vb :
  supplied st = [(a, va); (b, vb)] ->
  a <> b /\ fieldCheck st a = Valid a va /\ fieldCheck st b = Valid b vb.
Proof.
  unfold supplied, inputs. cbn [flat_map].
  destruct (fieldCheck_cases st kw) as [H1|[H1|[H1|[v1 H1]]]];
  destruct (fieldCheck_cases st kva) as [H2|[H2|[H2|[v2 H2]]]];
  destruct (fieldCheck_cases st kvar) as [H3|[H3|[H3|[v3 H3]]]];
  destruct (fieldCheck_cases st pf) as [H4|[H4|[H4|[v4 H4]]]];
  rewrite H1, H2, H3, H4; cbn [app]; intros E; try discriminate E;
  injection E as <- <- <- <-; (split; [discriminate | split; assumption]).
Qed.

Section PageFacts.
Variable sd : R -> string.

(** What a derived input shows does not depend on what it held. *)
Lemma showResult_eq r i e :
  showResult sd r i e =
  if isNaN (resultOf i r) then mkElement "" false (defaultPlaceholder i)
  else mkElement (displayed sd (resultOf i r)) true "Calculated".
Proof.
  unfold showResult, displayed.
  destruct (isNaN (resultOf i r)).
  - destruct i; reflexivity.
  - unfold setReadOnly, setValue. cbn [value readOnly placeholder andb].
    pose proof (toFixed3_nonempty sd
      (if lt (Math.abs (resultOf i r)) (Fin tiny) then Fin 0 else resultOf i r)) as H.
    apply String.eqb_neq in H. rewrite H. reflexivity.
Qed.

Lemma showResult_indep r i e e' : showResult sd r i e = showResult sd r i e'.
Proof. now rewrite !showResult_eq. Qed.


Lemma displayed_rounds x n :
  tiny <= x < 10 ^ 21 ->
  IZR n <= x * 1000 + / 2 < IZR n + 1 ->
  displayed sd (Fin x) = fixed3Digits n.
Proof.
  intros Hx Hn. unfold displayed. cbn [Math.abs lt].
  pose proof tiny_pos.
  rewrite Rabs_pos_eq by lra. rewrite (Rltb_false x tiny) by lra.
  apply toFixed3_rounds; [lra | exact Hn].
Qed.

(** Every recomputation of a page that is unlocked or locked either resets
    the page, leaving a message, or resolves the two valid sources. *)
Lemma calc_outcome st :
  unlocked st \/ (exists a b, lockedOn a b st) ->
  (exists m, calculatePowerFactor sd st = setStatus m (resetToInitialState st)) \/
  (exists a b va vb r,
      a <> b /\
      (lockedOn a b st \/ (unlocked st /\ supplied st = [(a, va); (b, vb)])) /\
      fieldCheck st a = Valid a va /\ fieldCheck st b = Valid b vb /\
      resolve [(a, va); (b, vb)] = Done r /\
      calculatePowerFactor sd st = resolvedPage sd r [a; b] (clearStatus st)).
Proof.
  intros [[Hd Hs] | (a & b & Hl)].
  - rewrite (calc_unlocked sd st Hd).
    destruct (lastRejection st) as [m|]; [left; eauto|].
    destruct (supplied st) as [|[a va] [|[b vb] [|? ?]]] eqn:Hsup;
      try (left; eauto; fail).
    destruct (supplied_pair _ _ _ _ _ Hsup) as (Hab & Ha & Hb).
    destruct (resolve [(a, va); (b, vb)]) as [m|r] eqn:Hr.
    + left. rewrite (calculateAndShow_threw sd _ m) by exact Hr.
      exists ("Calculation Error: " ++ m). reflexivity.
    + right. exists a, b, va, vb, r.
      rewrite (calculateAndShow_done sd _ r a b) by (assumption || reflexivity).
      repeat split; auto. right. repeat split; auto.
  - rewrite (calc_locked sd st a b Hl).
    destruct (fieldCheck_cases st a) as [Ha|[Ha|[Ha|[va Ha]]]]; rewrite Ha;
      try (left; eauto; fail).
    destruct (fieldCheck_cases st b) as [Hb|[Hb|[Hb|[vb Hb]]]]; rewrite Hb;
      try (left; eauto; fail).
    destruct Hl as (Hd & Hs & Hab).
    destruct (resolve [(a, va); (b, vb)]) as [m|r] eqn:Hr.
    + left. rewrite (calculateAndShow_threw sd _ m) by exact Hr.
      exists ("Calculation Error: " ++ m). reflexivity.
    + right. exists a, b, va, vb, r.
      rewrite (calculateAndShow_done sd _ r a b) by assumption.
      repeat split; auto. left. repeat split; auto.
Qed.

Lemma resolvedPage_locked r a b st : a <> b -> lockedOn a b (resolvedPage sd r [a; b] st).
Proof. intros H. repeat split; auto. Qed.

(** Every page of a session is unlocked or locked on a pair. *)
Lemma reachable_lock st :
  reachable sd st -> unlocked st \/ exists a b, lockedOn a b st.
Proof.
  induction 1 as [| i t st _ IH | st _ IH | st _ IH].
  - left. split; reflexivity.
  - destruct IH as [[Hd Hs] | (a & b & Hd & Hs & Hab)].
    + left. split; destruct i; assumption.
    + right. exists a, b. repeat split; destruct i; assumption.
  - destruct (calc_outcome st IH) as [[m ->] | (a & b & va & vb & r & Hab & _ & _ & _ & _ & ->)].
    + left. split; reflexivity.
    + right. exists a, b. now apply resolvedPage_locked.
  - left. split; reflexivity.
Qed.
End PageFacts.

(** ** Resets and edits *)

Lemma fieldCheck_parseable st i :
  isValid (fieldCheck st i) = true \/ fieldCheck st i = Empty ->
  unparseable (value (getInput i st)) = false.
Proof.
  unfold fieldCheck, validate, unparseable.
  destruct (String.eqb (trim (value (getInput i st))) ""); [reflexivity|].
  destruct (isNaN (parseFloat (value (getInput i st)))); [|reflexivity].
  intros [H|H]; discriminate H.
Qed.

Lemma reset_inputs st i :
  getInput i (resetToInitialState st) =
  mkElement (if readOnly (getInput i st) || unparseable (value (getInput i st))
             then "" else value (getInput i st))
            false (defaultPlaceholder i).
Proof.
  unfold resetToInitialState. rewrite forEachInput_eq.
  destruct i; cbn [getInput kwInput kvaInput kvarInput pfInput setSession];
    apply resetInput_eq.
Qed.

Lemma getInput_setStatus m st i : getInput i (setStatus m st) = getInput i st.
Proof. destruct i; reflexivity. Qed.

Lemma lastRejection_none st :
  (forall i, fieldCheck st i = Empty \/ exists v, fieldCheck st i = Valid i v) ->
  lastRejection st = None.
Proof.
  intros H. unfold lastRejection, inputs. cbn [fold_left].
  destruct (H kw) as [-> | [? ->]], (H kva) as [-> | [? ->]],
           (H kvar) as [-> | [? ->]], (H pf) as [-> | [? ->]]; reflexivity.
Qed.

Lemma setReadOnly_false_eq i e :
  setReadOnly i false e =
  mkElement (value e) false
    (if String.eqb (value e) "" then defaultPlaceholder i else placeholder e).
Proof.
  unfold setReadOnly. cbn [andb negb value readOnly placeholder].
  destruct (String.eqb (value e) ""); [destruct i|]; reflexivity.
Qed.

Lemma setReadOnly_false_same i e e' :
  value e = value e' -> placeholder e = placeholder e' ->
  setReadOnly i false e = setReadOnly i false e'.
Proof. intros Hv Hp. now rewrite !setReadOnly_false_eq, Hv, Hp. Qed.

Lemma valid_text_nonempty st i v :
  fieldCheck st i = Valid i v -> String.eqb (value (getInput i st)) "" = false.
Proof.
  unfold fieldCheck. intros H. apply String.eqb_neq. intros E.
  rewrite E in H. discriminate H.
Qed.

Lemma lockedOn_edit st a b i t : lockedOn a b st -> lockedOn a b (edit i t st).
Proof. intros (Hd & Hs & Hab). repeat split; destruct i; assumption. Qed.

Lemma fieldCheck_edit_other st i j t :
  i <> j -> fieldCheck (edit i t st) j = fieldCheck st j.
Proof. intros H. destruct i, j; try congruence; reflexivity. Qed.

Lemma fieldCheck_reset_edit_other st i j t :
  i <> j ->
  fieldCheck (resetToInitialState (edit i t st)) j
  = fieldCheck (resetToInitialState st) j.
Proof. intros H. destruct i, j; try congruence; reflexivity. Qed.

(** ** Pages with known texts *)

Lemma resolve_300_500 :
  resolve [(kw, Fin 300); (kva, Fin 500)]
  = Done (mkResults (Fin 300) (Fin 500) (Fin 400) (Fin (6 / 10))).
Proof.
  rewrite resolve_pair by discriminate.
  rewrite (case_kva_kw_done 500 300)
    by (reflexivity || (rewrite !Rabs_pos_eq; lra)).
  replace (500 * 500 - 300 * 300) with (400 * 400) by lra.
  rewrite sqrt_square by lra. rewrite (Reqb_false 500 0) by lra.
  replace (300 / 500) with (6 / 10) by lra. reflexivity.
Qed.

Section PageClaims.

Variable sd : R -> string.

Lemma displayed_400 : displayed sd (Fin 400) = "400.000".
Proof.
  rewrite (displayed_rounds sd 400 400000); [reflexivity | |];
    unfold tiny; simpl; lra.
Qed.

Lemma displayed_six_tenths : displayed sd (Fin (6 / 10)) = "0.600".
Proof.
  rewrite (displayed_rounds sd (6 / 10) 600); [reflexivity | |];
    unfold tiny; simpl; lra.
Qed.

Lemma resolvedPage_300_500 st :
  value (kwInput st) = "300" -> value (kvaInput st) = "500" ->
  resolvedPage sd (mkResults (Fin 300) (Fin 500) (Fin 400) (Fin (6 / 10)))
    [kw; kva] (clearStatus st) = page_300_500 st.
Proof.
  intros Hp Hs. unfold resolvedPage, page_300_500.
  cbn [includes existsb fieldId_eqb orb getInput clearStatus setStatus kwInput
       kvaInput kvarInput pfInput statusDiv].
  rewrite !setReadOnly_false_eq, !showResult_eq, Hp, Hs.
  cbn [resultOf res_kvar res_pf isNaN].
  rewrite displayed_400, displayed_six_tenths. reflexivity.
Qed.

Lemma calc_locked_300_500 st :
  lockedOn kw kva st ->
  value (kwInput st) = "300" -> value (kvaInput st) = "500" ->
  calculatePowerFactor sd st = page_300_500 st.
Proof.
  intros Hl Hp Hs. rewrite (calc_locked sd st kw kva Hl).
  unfold fieldCheck. cbn [getInput]. rewrite Hp, Hs.
  rewrite (validate_natural kw "300" 300), (validate_natural kva "500" 500)
    by (reflexivity || lia || discriminate).
  rewrite (calculateAndShow_done sd _ _ kw kva)
    by (discriminate || apply Hl || apply resolve_300_500).
  now apply resolvedPage_300_500.
Qed.

Lemma calc_unlocked_300_500 :
  calculatePowerFactor sd (edit kva "500" (edit kw "300" initialState))
  = page_300_500 initialState.
Proof.
  rewrite calc_unlocked by reflexivity.
  unfold lastRejection, supplied, inputs. cbn [fold_left flat_map].
  read_fields.
  rewrite (validate_natural kw "300" 300), (validate_natural kva "500" 500)
    by (reflexivity || lia || discriminate).
  cbn [rejectionMessage app].
  rewrite (calculateAndShow_done sd _ _ kw kva)
    by (discriminate || reflexivity || apply resolve_300_500).
  exact (resolvedPage_300_500 (edit kva "500" (edit kw "300" initialState))
           eq_refl eq_refl).
Qed.

Lemma resolvedPage_edit_target r a b i t st :
  i <> a -> i <> b ->
  resolvedPage sd r [a; b] (clearStatus (edit i t st))
  = resolvedPage sd r [a; b] (clearStatus st).
Proof.
  intros Ha Hb. unfold resolvedPage.
  destruct a, b, i; try congruence;
    cbn [includes existsb fieldId_eqb orb getInput clearStatus setStatus edit
         setInput kwInput kvaInput kvarInput pfInput statusDiv];
    f_equal; apply showResult_indep.
Qed.

Lemma lockedOn_not_unlocked a b st : lockedOn a b st -> unlocked st -> False.
Proof. intros (Hd & _) (Hd' & _). congruence. Qed.

Lemma calc_setStatus m st :
  calculatePowerFactor sd (setStatus m st) = calculatePowerFactor sd st.
Proof. reflexivity. Qed.

(** One recomputation of a locked page. *)
Lemma locked_step st a b :
  lockedOn a b st ->
  let st' := calculatePowerFactor sd st in
  unlocked st' \/
  (lockedOn a b st' /\
   exists va vb r,
     fieldCheck st a = Valid a va /\ fieldCheck st b = Valid b vb /\
     resolve [(a, va); (b, vb)] = Done r /\
     st' = resolvedPage sd r [a; b] (clearStatus st)).
Proof.
  intros Hl st'. unfold st'. rewrite (calc_locked sd st a b Hl).
  destruct (fieldCheck_cases st a) as [Ha|[Ha|[Ha|[va Ha]]]]; rewrite Ha;
    try (left; split; reflexivity).
  destruct (fieldCheck_cases st b) as [Hb|[Hb|[Hb|[vb Hb]]]]; rewrite Hb;
    try (left; split; reflexivity).
  destruct (resolve [(a, va); (b, vb)]) as [m|r] eqn:Hr.
  - left. rewrite (calculateAndShow_threw sd _ m) by exact Hr. split; reflexivity.
  - right. destruct Hl as (Hd & Hs & Hab).
    rewrite (calculateAndShow_done sd _ r a b) by assumption.
    split; [now apply resolvedPage_locked|]. exists va, vb, r. auto.
Qed.

Lemma locked_step_done st a b :
  lockedOn a b st ->
  initialCalculationDone (calculatePowerFactor sd st) = true ->
  exists va vb r,
    fieldCheck st a = Valid a va /\ fieldCheck st b = Valid b vb /\
    resolve [(a, va); (b, vb)] = Done r /\
    calculatePowerFactor sd st = resolvedPage sd r [a; b] (clearStatus st).
Proof.
  intros Hl Hd. destruct (locked_step st a b Hl) as [[Hu _] | [_ H]].
  - congruence.
  - exact H.
Qed.

Lemma resolvedPage_sameSources r a b s s' :
  sameSources a b s s' ->
  resolvedPage sd r [a; b] (clearStatus s) = resolvedPage sd r [a; b] (clearStatus s').
Proof.
  intros (Hl & _ & Hsame). destruct Hl as (_ & _ & Hab).
  destruct (Hsame a (or_introl eq_refl)) as (Hva & Hpa).
  destruct (Hsame b (or_intror eq_refl)) as (Hvb & Hpb).
  unfold resolvedPage.
  destruct a, b; try congruence;
    cbn [includes existsb fieldId_eqb orb getInput clearStatus setStatus
         kwInput kvaInput kvarInput pfInput statusDiv] in *;
    f_equal; try apply showResult_indep; now apply setReadOnly_false_same.
Qed.

Lemma sameSources_check a b s s' i :
  sameSources a b s s' -> i = a \/ i = b -> fieldCheck s' i = fieldCheck s i.
Proof.
  intros (_ & _ & Hsame) Hi. unfold fieldCheck.
  now rewrite (proj1 (Hsame i Hi)).
Qed.

(** Pages with the same sources recompute to the same page, when the
    recomputation succeeds. *)
Lemma sameSources_calc a b s s' :
  sameSources a b s s' ->
  initialCalculationDone (calculatePowerFactor sd s) = true ->
  calculatePowerFactor sd s' = calculatePowerFactor sd s.
Proof.
  intros Hsame Hd.
  destruct (locked_step_done s a b (proj1 Hsame) Hd) as (va & vb & r & Ha & Hb & Hr & ->).
  pose proof Hsame as (Hl & Hl' & Hs).
  rewrite (calc_locked sd s' a b Hl').
  rewrite (sameSources_check a b s s' a Hsame (or_introl eq_refl)).
  rewrite (sameSources_check a b s s' b Hsame (or_intror eq_refl)).
  rewrite Ha, Hb.
  destruct Hl' as (Hd' & Hs' & Hab).
  rewrite (calculateAndShow_done sd _ r a b) by assumption.
  symmetry. now apply resolvedPage_sameSources.
Qed.

Lemma sameSources_edit a b s s' i t :
  sameSources a b s s' -> sameSources a b (edit i t s) (edit i t s').
Proof.
  intros (Hl & Hl' & Hs). split; [|split]; try now apply lockedOn_edit.
  intros j Hj. destruct (Hs j Hj) as [Hv Hp].
  destruct i, j; cbn [edit setInput getInput setValue value placeholder kwInput
                      kvaInput kvarInput pfInput] in *; split; auto.
Qed.

Lemma sameSources_calc_left a b s s' :
  sameSources a b s s' ->
  initialCalculationDone (calculatePowerFactor sd s) = true ->
  sameSources a b (calculatePowerFactor sd s) s'.
Proof.
  intros Hsame Hd.
  destruct (locked_step_done s a b (proj1 Hsame) Hd) as (va & vb & r & Ha & Hb & Hr & ->).
  destruct Hsame as (Hl & Hl' & Hs). destruct Hl as (Hd0 & Hs0 & Hab).
  split; [now apply resolvedPage_locked | split; [exact Hl'|]].
  intros j Hj. rewrite <- (proj1 (Hs j Hj)), <- (proj2 (Hs j Hj)).
  assert (Hne : String.eqb (value (getInput j s)) "" = false).
  { destruct Hj; subst j; eapply valid_text_nonempty; eassumption. }
  assert (Hinc : includes [a; b] j = true).
  { destruct Hj; subst j; destruct a, b; reflexivity. }
  unfold resolvedPage.
  destruct j; cbn [getInput kwInput kvaInput kvarInput pfInput clearStatus setStatus] in *;
    rewrite Hinc, setReadOnly_false_eq; cbn [value placeholder]; rewrite Hne; auto.
Qed.

Lemma schedules_agree_from a b edits :
  edits <> [] ->
  forall s s',
  sameSources a b s s' ->
  Forall (fun p => initialCalculationDone p = true) (tracePerKeystroke sd edits s) ->
  runPerKeystroke sd edits s = calculatePowerFactor sd (applyEdits edits s').
Proof.
  induction edits as [|e rest IH]; [congruence|]. intros _ s s' Hsame Htrace.
  cbn [tracePerKeystroke] in Htrace. inversion Htrace as [|p ps Hp Hps]; subst.
  pose proof (sameSources_edit a b s s' (fst e) (snd e) Hsame) as Hedit.
  destruct rest as [|e2 rest'].
  - cbn [runPerKeystroke applyEdits fold_left]. symmetry.
    now apply (sameSources_calc a b).
  - change (runPerKeystroke sd (e :: e2 :: rest') s)
      with (runPerKeystroke sd (e2 :: rest')
              (calculatePowerFactor sd (edit (fst e) (snd e) s))).
    change (applyEdits (e :: e2 :: rest') s')
      with (applyEdits (e2 :: rest') (edit (fst e) (snd e) s')).
    apply IH; [discriminate | | exact Hps].
    now apply sameSources_calc_left.
Qed.


(** ** The claims about the page *)

(** C1.  The sources of a session are none or two distinct ones on every
    page the session can reach.  A recomputation of a page locked on [a], [b]
    either resets the session or stays locked on [a], [b], and then the page
    is the one resolved from the validated texts of inputs [a] and [b] alone.
    Text put into any other input changes neither the resolved page nor
    whether and with what message the session is reset.  On a page locked on
    real power 300 and apparent power 500, whatever text a derived input is
    given, the recomputation shows reactive power 400.000 and power factor
    0.600.  And a session gets locked on [a], [b] only from a page on which
    exactly these two inputs are valid and resolve. *)
Theorem lock_holds_its_sources :
  (forall st, reachable sd st ->
     sourceFieldIds st = [] \/ exists a b, a <> b /\ sourceFieldIds st = [a; b]) /\
  (forall st a b, lockedOn a b st ->
     let st' := calculatePowerFactor sd st in
     unlocked st' \/
     (lockedOn a b st' /\
      exists va vb r,
        fieldCheck st a = Valid a va /\ fieldCheck st b = Valid b vb /\
        resolve [(a, va); (b, vb)] = Done r /\
        st' = resolvedPage sd r [a; b] (clearStatus st))) /\
  (forall st a b i t, lockedOn a b st -> i <> a -> i <> b ->
     let s1 := calculatePowerFactor sd st in
     let s2 := calculatePowerFactor sd (edit i t st) in
     (lockedOn a b s1 -> s2 = s1) /\
     (unlocked s1 -> unlocked s2 /\ statusDiv s2 = statusDiv s1)) /\
  (forall st i t,
     lockedOn kw kva st ->
     value (kwInput st) = "300" -> value (kvaInput st) = "500" ->
     i = kvar \/ i = pf ->
     let st' := calculatePowerFactor sd (edit i t st) in
     st' = calculatePowerFactor sd st /\
     value (kvarInput st') = "400.000" /\ value (pfInput st') = "0.600" /\
     lockedOn kw kva st') /\
  (forall st a b,
     unlocked st -> lockedOn a b (calculatePowerFactor sd st) ->
     exists va vb r,
       supplied st = [(a, va); (b, vb)] /\ resolve [(a, va); (b, vb)] = Done r).
Proof.
  split; [|split; [|split; [|split]]].
  - intros st H. destruct (reachable_lock sd st H) as [[_ Hs] | (a & b & _ & Hs & Hab)].
    + now left.
    + right. now exists a, b.
  - intros st a b Hl. now apply locked_step.
  - intros st a b i t Hl Hia Hib s1 s2. unfold s1, s2.
    rewrite (calc_locked sd st a b Hl).
    rewrite (calc_locked sd _ a b (lockedOn_edit st a b i t Hl)).
    rewrite !fieldCheck_edit_other, fieldCheck_reset_edit_other by assumption.
    assert (Hfail : forall m m',
      m = m' ->
      (lockedOn a b (setStatus m (resetToInitialState st)) ->
       setStatus m' (resetToInitialState (edit i t st))
       = setStatus m (resetToInitialState st)) /\
      (unlocked (setStatus m (resetToInitialState st)) ->
       unlocked (setStatus m' (resetToInitialState (edit i t st))) /\
       statusDiv (setStatus m' (resetToInitialState (edit i t st)))
       = statusDiv (setStatus m (resetToInitialState st)))).
    { intros m m' <-. split.
      - intros (Hd & _). discriminate Hd.
      - intros _. split; [split|]; reflexivity. }
    destruct (fieldCheck_cases st a) as [Ha|[Ha|[Ha|[va Ha]]]]; rewrite Ha;
      try (apply Hfail; reflexivity).
    destruct (fieldCheck_cases st b) as [Hb|[Hb|[Hb|[vb Hb]]]]; rewrite Hb;
      try (apply Hfail; reflexivity).
    destruct Hl as (Hd & Hs & Hab).
    destruct (resolve [(a, va); (b, vb)]) as [m|r] eqn:Hr.
    + rewrite !(calculateAndShow_threw sd _ m) by exact Hr.
      apply (Hfail ("Calculation Error: " ++ m) ("Calculation Error: " ++ m) eq_refl).
    + rewrite !(calculateAndShow_done sd _ r a b)
        by (assumption || (destruct i; assumption)).
      rewrite resolvedPage_edit_target by assumption.
      split; [reflexivity|]. intros Hu. exfalso.
      apply (lockedOn_not_unlocked a b _ (resolvedPage_locked sd r a b _ Hab) Hu).
  - intros st i t Hl Hp Hs Hi st'. unfold st'.
    assert (Hl' : lockedOn kw kva (edit i t st)) by now apply lockedOn_edit.
    rewrite (calc_locked_300_500 st Hl Hp Hs).
    rewrite (calc_locked_300_500 (edit i t st) Hl')
      by (destruct Hi; subst i; assumption).
    destruct Hi; subst i; (repeat split; try reflexivity; discriminate).
  - intros st a b Hu Hl.
    destruct (calc_outcome sd st (or_introl Hu))
      as [[m Hm] | (a' & b' & va & vb & r & _ & Hfrom & _ & _ & Hr & Hc)].
    + rewrite Hm in Hl. destruct Hl as (Hd & _). discriminate Hd.
    + rewrite Hc in Hl. destruct Hl as (_ & Hs & _).
      injection Hs as -> ->.
      destruct Hfrom as [Hl' | (_ & Hsup)].
      * exfalso. exact (lockedOn_not_unlocked a b st Hl' Hu).
      * exists va, vb, r. auto.
Qed.


(** C7.  On an unlocked page where every input is blank or valid and the
    number of valid inputs is not two, a recomputation leaves the session
    unlocked; the status is empty for no value, asks for one more value for
    one, and asks for exactly two for more than two; and no input receives a
    value: each is editable and holds what it held (an input that was
    read-only is emptied). *)
Theorem wrong_count_stays_unlocked (st : state) :
  initialCalculationDone st = false ->
  (forall i, fieldCheck st i = Empty \/ exists v, fieldCheck st i = Valid i v) ->
  List.length (supplied st) <> 2%nat ->
  let st' := calculatePowerFactor sd st in
  unlocked st' /\
  (List.length (supplied st) = 0%nat -> statusDiv st' = "") /\
  (List.length (supplied st) = 1%nat ->
     statusDiv st' = "Please provide one more value.") /\
  ((2 < List.length (supplied st))%nat ->
     statusDiv st' = "Please provide exactly two values.") /\
  (forall i,
     readOnly (getInput i st') = false /\
     value (getInput i st')
     = if readOnly (getInput i st) then "" else value (getInput i st)).
Proof.
  intros Hd Hall Hn st'.
  assert (Hst : st' = setStatus (countMessage (List.length (supplied st)))
                        (resetToInitialState st)).
  { unfold st'. rewrite (calc_unlocked sd st Hd), (lastRejection_none st Hall).
    destruct (supplied st) as [|[a va] [|[b vb] [|? ?]]]; try reflexivity.
    now contradiction Hn. }
  rewrite Hst. split; [split; reflexivity|].
  split; [|split; [|split]].
  - intros ->. reflexivity.
  - intros ->. reflexivity.
  - intros H. cbn [statusDiv setStatus]. unfold countMessage.
    apply Nat.ltb_lt in H. now rewrite H.
  - intros i. rewrite getInput_setStatus, reset_inputs. cbn [readOnly value].
    split; [reflexivity|].
    rewrite fieldCheck_parseable.
    + now rewrite orb_false_r.
    + destruct (Hall i) as [-> | [v ->]]; auto.
Qed.

(** C6, as amended.  When a recomputation of a page locked on [a], [b]
    fails, because [a] or [b] is blank, unparseable or out of its domain, or
    because the resolver rejects the pair, the session is unlocked and all
    four inputs are editable; an input that was read-only (a derived one) or
    holds unparseable text is emptied, and every other input keeps its
    text. *)
Theorem locked_failure_resets (st : state) (a b : fieldId) :
  lockedOn a b st ->
  isValid (fieldCheck st a) = false \/ isValid (fieldCheck st b) = false \/
  (exists va vb m, fieldCheck st a = Valid a va /\ fieldCheck st b = Valid b vb /\
                   resolve [(a, va); (b, vb)] = Threw m) ->
  let st' := calculatePowerFactor sd st in
  unlocked st' /\
  forall i,
    readOnly (getInput i st') = false /\
    value (getInput i st')
    = if readOnly (getInput i st) || unparseable (value (getInput i st))
      then "" else value (getInput i st).
Proof.
  intros Hl Hfail st'.
  assert (Hst : exists m, st' = setStatus m (resetToInitialState st)).
  { unfold st'. rewrite (calc_locked sd st a b Hl).
    destruct (fieldCheck_cases st a) as [Ha|[Ha|[Ha|[va Ha]]]]; rewrite Ha; eauto.
    destruct (fieldCheck_cases st b) as [Hb|[Hb|[Hb|[vb Hb]]]]; rewrite Hb; eauto.
    destruct Hfail as [H | [H | (va' & vb' & m & Ha' & Hb' & Hr)]].
    - rewrite Ha in H. discriminate H.
    - rewrite Hb in H. discriminate H.
    - assert (va' = va) by congruence. assert (vb' = vb) by congruence. subst.
      rewrite (calculateAndShow_threw sd _ m) by exact Hr.
      exists ("Calculation Error: " ++ m). reflexivity. }
  destruct Hst as [m ->]. split; [split; reflexivity|].
  intros i. rewrite getInput_setStatus, reset_inputs. split; reflexivity.
Qed.

Lemma calc_sameButStatus s s' :
  sameButStatus s s' -> calculatePowerFactor sd s = calculatePowerFactor sd s'.
Proof.
  unfold sameButStatus. intros H.
  rewrite <- (calc_setStatus "" s), <- (calc_setStatus "" s'). now rewrite H.
Qed.

Lemma sameButStatus_edit s s' i t :
  sameButStatus s s' -> sameButStatus (edit i t s) (edit i t s').
Proof.
  unfold sameButStatus. intros H.
  assert (Hc : forall p, setStatus "" (edit i t p) = edit i t (setStatus "" p))
    by (intros p; destruct i; reflexivity).
  now rewrite !Hc, H.
Qed.

Lemma sameButStatus_trans s1 s2 s3 :
  sameButStatus s1 s2 -> sameButStatus s2 s3 -> sameButStatus s1 s3.
Proof. unfold sameButStatus. congruence. Qed.

Lemma schedules_agree_quiet edits :
  edits <> [] ->
  forall s s',
  sameButStatus s s' ->
  quietBurst sd edits s ->
  runPerKeystroke sd edits s = calculatePowerFactor sd (applyEdits edits s').
Proof.
  induction edits as [|e rest IH]; [congruence|]. intros _ s s' Hsame Hq.
  pose proof (sameButStatus_edit s s' (fst e) (snd e) Hsame) as Hedit.
  destruct rest as [|e2 rest'].
  - cbn [runPerKeystroke applyEdits fold_left]. now apply calc_sameButStatus.
  - change (runPerKeystroke sd (e :: e2 :: rest') s)
      with (runPerKeystroke sd (e2 :: rest')
              (calculatePowerFactor sd (edit (fst e) (snd e) s))).
    change (applyEdits (e :: e2 :: rest') s')
      with (applyEdits (e2 :: rest') (edit (fst e) (snd e) s')).
    destruct Hq as [Hq1 Hq2].
    apply IH; [discriminate | | exact Hq2].
    now apply (sameButStatus_trans _ (edit (fst e) (snd e) s)).
Qed.

(** C9, as amended.  The per-keystroke and the debounced schedule end on the
    same page over a burst of edits in two cases: the session is locked and
    every per-keystroke recomputation succeeds, so that it stays locked
    throughout; or every recomputation before the last leaves the page as the
    edit made it, up to the status line. *)
Theorem schedules_agree (st : state) (edits : list (fieldId * string)) :
  ((exists a b, lockedOn a b st) /\
   Forall (fun p => initialCalculationDone p = true)
          (tracePerKeystroke sd edits st)) \/
  quietBurst sd edits st ->
  runPerKeystroke sd edits st = runDebounced sd edits st.
Proof.
  intros H. destruct edits as [|e rest]; [reflexivity|].
  unfold runDebounced. destruct H as [((a & b & Hl) & Htrace) | Hquiet].
  - apply (schedules_agree_from a b); [discriminate | | exact Htrace].
    repeat split; auto; apply Hl.
  - apply schedules_agree_quiet; [discriminate | reflexivity | exact Hquiet].
Qed.

End PageClaims.

(** ** Validation *)




(** * The claims at concrete pages *)

Lemma lockedOn_page_300_500 st : lockedOn kw kva (page_300_500 st).
Proof. repeat split; discriminate. Qed.

Lemma reachable_page_300_500 sd : reachable sd (page_300_500 initialState).
Proof.
  rewrite <- (calc_unlocked_300_500 sd).
  apply reach_calc, reach_edit, reach_edit, reach_init.
Qed.

(** C1 at the page locked on P = 300, S = 500, with text typed over the
    derived reactive power. *)
Lemma lock_holds_its_sources_witness :
  let sd := noLargeDigits in
  let st := page_300_500 initialState in
  reachable sd st /\ lockedOn kw kva st /\ kvar <> kw /\ kvar <> kva /\
  value (kwInput st) = "300" /\ value (kvaInput st) = "500" /\
  (sourceFieldIds st = [] \/ exists a b, a <> b /\ sourceFieldIds st = [a; b]) /\
  (unlocked (calculatePowerFactor sd st) \/
   (lockedOn kw kva (calculatePowerFactor sd st) /\
    exists va vb r,
      fieldCheck st kw = Valid kw va /\ fieldCheck st kva = Valid kva vb /\
      resolve [(kw, va); (kva, vb)] = Done r /\
      calculatePowerFactor sd st = resolvedPage sd r [kw; kva] (clearStatus st))) /\
  (lockedOn kw kva (calculatePowerFactor sd st) ->
   calculatePowerFactor sd (edit kvar "7" st) = calculatePowerFactor sd st) /\
  value (kvarInput (calculatePowerFactor sd (edit kvar "7" st))) = "400.000" /\
  value (pfInput (calculatePowerFactor sd (edit kvar "7" st))) = "0.600" /\
  unlocked (edit kva "500" (edit kw "300" initialState)) /\
  lockedOn kw kva
    (calculatePowerFactor sd (edit kva "500" (edit kw "300" initialState))) /\
  exists va vb r,
    supplied (edit kva "500" (edit kw "300" initialState)) = [(kw, va); (kva, vb)] /\
    resolve [(kw, va); (kva, vb)] = Done r.
Proof.
  intros sd st.
  pose proof (reachable_page_300_500 sd) as Hreach.
  pose proof (lockedOn_page_300_500 initialState) as Hlock.
  assert (H1 : kvar <> kw) by discriminate.
  assert (H2 : kvar <> kva) by discriminate.
  assert (Hp : value (kwInput st) = "300") by reflexivity.
  assert (Hs : value (kvaInput st) = "500") by reflexivity.
  assert (Hu : unlocked (edit kva "500" (edit kw "300" initialState)))
    by (split; reflexivity).
  assert (Hl2 : lockedOn kw kva
                  (calculatePowerFactor sd (edit kva "500" (edit kw "300" initialState))))
    by (rewrite calc_unlocked_300_500; apply lockedOn_page_300_500).
  destruct (lock_holds_its_sources sd) as (T1 & T2 & T3 & T4 & T5).
  repeat (split; [assumption|]).
  split; [exact (T1 st Hreach)|].
  split; [exact (T2 st kw kva Hlock)|].
  split; [exact (proj1 (T3 st kw kva kvar "7" Hlock H1 H2))|].
  destruct (T4 st kvar "7" Hlock Hp Hs (or_introl eq_refl)) as (_ & Hq & Hf & _).
  repeat (split; [assumption|]).
  exact (T5 _ kw kva Hu Hl2).
Defined.


Lemma fieldCheck_kw_300 :
  fieldCheck (edit kw "300" initialState) kw = Valid kw (Fin 300).
Proof. apply (validate_natural kw "300" 300); reflexivity || lia || discriminate. Qed.

(** C7 at the page where only P = 300 is supplied. *)
Lemma wrong_count_stays_unlocked_witness :
  let st := edit kw "300" initialState in
  let st' := calculatePowerFactor noLargeDigits st in
  initialCalculationDone st = false /\
  List.length (supplied st) = 1%nat /\
  unlocked st' /\ statusDiv st' = "Please provide one more value." /\
  forall i, readOnly (getInput i st') = false /\
            value (getInput i st') = value (getInput i st).
Proof.
  intros st st'.
  assert (Hd : initialCalculationDone st = false) by reflexivity.
  assert (Hall : forall i, fieldCheck st i = Empty \/
                           exists v, fieldCheck st i = Valid i v).
  { intros i. destruct i; [right | left; reflexivity ..].
    eexists. apply fieldCheck_kw_300. }
  assert (Hsup : supplied st = [(kw, Fin 300)]).
  { unfold supplied, inputs, st. cbn [flat_map]. rewrite fieldCheck_kw_300.
    reflexivity. }
  assert (Hn : List.length (supplied st) <> 2%nat) by (rewrite Hsup; discriminate).
  assert (H1 : List.length (supplied st) = 1%nat) by (rewrite Hsup; reflexivity).
  destruct (wrong_count_stays_unlocked noLargeDigits st Hd Hall Hn)
    as (Hu & _ & Hone & _ & Hfields).
  split; [exact Hd|]. split; [exact H1|]. split; [exact Hu|].
  split; [exact (Hone H1)|].
  intros i. destruct (Hfields i) as [Hr Hv]. split; [exact Hr|].
  unfold st'. rewrite Hv. destruct i; reflexivity.
Defined.

Lemma fieldCheck_cleared_kw st :
  fieldCheck (edit kw "" st) kw = Empty.
Proof. reflexivity. Qed.

(** C6 at the page locked on P = 300, S = 500 after the real power is
    deleted. *)
Lemma locked_failure_resets_witness :
  let st := edit kw "" (page_300_500 initialState) in
  let st' := calculatePowerFactor noLargeDigits st in
  lockedOn kw kva st /\ isValid (fieldCheck st kw) = false /\
  unlocked st' /\
  forall i,
    readOnly (getInput i st') = false /\
    value (getInput i st')
    = if readOnly (getInput i st) || unparseable (value (getInput i st))
      then "" else value (getInput i st).
Proof.
  intros st st'.
  assert (Hl : lockedOn kw kva st) by (repeat split; discriminate).
  assert (Hv : isValid (fieldCheck st kw) = false) by reflexivity.
  split; [exact Hl|]. split; [exact Hv|].
  exact (locked_failure_resets noLargeDigits st kw kva Hl (or_introl Hv)).
Defined.

(** C6, as stated, fails: when the locked real power is deleted, the derived
    reactive power, which holds the numeric text [400.000], is cleared. *)
Lemma derived_numeric_value_is_cleared :
  let locked :=
    calculatePowerFactor noLargeDigits (edit kva "500" (edit kw "300" initialState)) in
  let st' := calculatePowerFactor noLargeDigits (edit kw "" locked) in
  value (kvarInput locked) = "400.000" /\
  isNaN (parseFloat "400.000") = false /\
  initialCalculationDone st' = false /\
  value (kvarInput st') = "".
Proof.
  intros locked st'. unfold st', locked.
  rewrite calc_unlocked_300_500.
  rewrite (calc_locked noLargeDigits _ kw kva)
    by (repeat split; discriminate).
  rewrite fieldCheck_cleared_kw.
  repeat split; reflexivity.
Qed.



Lemma calc_only_300 :
  calculatePowerFactor noLargeDigits (edit kw "300" initialState)
  = setStatus "Please provide one more value." (edit kw "300" initialState).
Proof.
  rewrite calc_unlocked by reflexivity.
  unfold lastRejection, supplied, inputs. cbn [fold_left flat_map].
  rewrite fieldCheck_kw_300. reflexivity.
Qed.

(** C9 at two bursts: on the page locked on P = 300, S = 500 both sources
    are typed again; on the initial page P = 300 and then S = 500 are
    typed. *)
Lemma schedules_agree_witness :
  let locked := page_300_500 initialState in
  let retyped := [(kva, "500"); (kw, "300")] in
  let typed := [(kw, "300"); (kva, "500")] in
  ((exists a b, lockedOn a b locked) /\
   Forall (fun p => initialCalculationDone p = true)
          (tracePerKeystroke noLargeDigits retyped locked) /\
   runPerKeystroke noLargeDigits retyped locked
   = runDebounced noLargeDigits retyped locked) /\
  (quietBurst noLargeDigits typed initialState /\
   runPerKeystroke noLargeDigits typed initialState
   = runDebounced noLargeDigits typed initialState).
Proof.
  intros locked retyped typed. split.
  - assert (Hl : exists a b, lockedOn a b locked).
    { exists kw, kva. apply lockedOn_page_300_500. }
    assert (Ht : Forall (fun p => initialCalculationDone p = true)
                        (tracePerKeystroke noLargeDigits retyped locked)).
    { unfold retyped, locked. cbn [tracePerKeystroke fst snd].
      rewrite (calc_locked_300_500 noLargeDigits (edit kva "500" _))
        by (reflexivity || (repeat split; discriminate)).
      rewrite (calc_locked_300_500 noLargeDigits (edit kw "300" _))
        by (reflexivity || (repeat split; discriminate)).
      repeat constructor. }
    split; [exact Hl|]. split; [exact Ht|].
    exact (schedules_agree noLargeDigits locked retyped (or_introl (conj Hl Ht))).
  - assert (Hq : quietBurst noLargeDigits typed initialState).
    { unfold typed. cbn [quietBurst fst snd]. rewrite calc_only_300.
      split; [reflexivity | exact I]. }
    split; [exact Hq|].
    exact (schedules_agree noLargeDigits initialState typed (or_intror Hq)).
Defined.

Lemma fieldCheck_typed_all :
  let st := edit pf "0.600" (edit kvar "400.000"
              (edit kva "500" (edit kw "300" initialState))) in
  fieldCheck st kw = Valid kw (Fin 300) /\
  fieldCheck st kva = Valid kva (Fin 500) /\
  fieldCheck st kvar = Valid kvar (Fin (decimalValue 400000 (-3))) /\
  fieldCheck st pf = Valid pf (Fin (decimalValue 600 (-3))).
Proof.
  intros st. repeat split.
  - apply (validate_natural kw "300" 300); reflexivity || lia || discriminate.
  - apply (validate_natural kva "500" 500); reflexivity || lia || discriminate.
  - apply (validate_decimal kvar "400.000" 400000 (-3)); try reflexivity.
    apply inDomain_Fin_power; [discriminate|].
    change (decimalValue 400000 (-3)) with (IZR 400000 / IZR 1000). lra.
  - apply (validate_decimal pf "0.600" 600 (-3)); try reflexivity.
    apply inDomain_Fin_pf.
    change (decimalValue 600 (-3)) with (IZR 600 / IZR 1000). lra.
Qed.

(** C9, as stated, fails.  First burst: P = 300 and S = 500 are typed and S
    is deleted again.  Recomputing after every edit locks the pair and then
    reports the missing source; recomputing once sees one value and asks for
    another; the field texts end up the same.  Second: the locked page shows
    300, 500, 400.000, 0.600 and recomputes to itself, while a page in which
    the same four texts were typed before any recomputation is turned
    down. *)
Lemma schedules_disagree :
  let edits := [(kw, "300"); (kva, "500"); (kva, "")] in
  let perKey := runPerKeystroke noLargeDigits edits initialState in
  let settled := runDebounced noLargeDigits edits initialState in
  let locked :=
    runPerKeystroke noLargeDigits [(kw, "300"); (kva, "500")] initialState in
  let typed :=
    applyEdits [(kw, "300"); (kva, "500"); (kvar, "400.000"); (pf, "0.600")]
      initialState in
  (statusDiv perKey = "Please provide a valid number for KVA." /\
   statusDiv settled = "Please provide one more value." /\
   (forall i, value (getInput i perKey) = value (getInput i settled)) /\
   perKey <> settled) /\
  ((forall i, value (getInput i locked) = value (getInput i typed)) /\
   calculatePowerFactor noLargeDigits locked = locked /\
   initialCalculationDone locked = true /\
   initialCalculationDone (calculatePowerFactor noLargeDigits typed) = false /\
   statusDiv (calculatePowerFactor noLargeDigits typed)
   = "Please provide exactly two values.").
Proof.
  intros edits.
  assert (Hlocked : runPerKeystroke noLargeDigits [(kw, "300"); (kva, "500")] initialState
                    = page_300_500 initialState).
  { unfold runPerKeystroke. cbn [fold_left fst snd]. rewrite calc_only_300.
    change (edit kva "500" (setStatus "Please provide one more value."
                              (edit kw "300" initialState)))
      with (setStatus "Please provide one more value."
              (edit kva "500" (edit kw "300" initialState))).
    now rewrite calc_setStatus, calc_unlocked_300_500. }
  assert (HperKey : runPerKeystroke noLargeDigits edits initialState
                    = setStatus "Please provide a valid number for KVA."
                        (edit kw "300" initialState)).
  { change (runPerKeystroke noLargeDigits edits initialState)
      with (calculatePowerFactor noLargeDigits
              (edit kva ""
                 (runPerKeystroke noLargeDigits [(kw, "300"); (kva, "500")]
                    initialState))).
    rewrite Hlocked.
    rewrite (calc_locked noLargeDigits _ kw kva) by (repeat split; discriminate).
    replace (fieldCheck (edit kva "" (page_300_500 initialState)) kw)
      with (Valid kw (Fin 300))
      by (symmetry; apply (validate_natural kw "300" 300);
          reflexivity || lia || discriminate).
    reflexivity. }
  assert (Hsettled : runDebounced noLargeDigits edits initialState
                     = setStatus "Please provide one more value."
                         (edit kw "300" initialState)).
  { unfold edits, runDebounced, applyEdits. cbn [fold_left fst snd].
    exact calc_only_300. }
  assert (Htyped :
    calculatePowerFactor noLargeDigits
      (applyEdits [(kw, "300"); (kva, "500"); (kvar, "400.000"); (pf, "0.600")]
         initialState)
    = setStatus "Please provide exactly two values."
        (applyEdits [(kw, "300"); (kva, "500"); (kvar, "400.000"); (pf, "0.600")]
           initialState)).
  { unfold applyEdits. cbn [fold_left fst snd].
    destruct fieldCheck_typed_all as (H1 & H2 & H3 & H4).
    rewrite calc_unlocked by reflexivity.
    unfold lastRejection, supplied, inputs. cbn [fold_left flat_map].
    rewrite H1, H2, H3, H4. reflexivity. }
  cbv zeta. rewrite HperKey, Hsettled, Hlocked, Htyped.
  split.
  - split; [reflexivity|]. split; [reflexivity|]. split.
    + intros i. destruct i; reflexivity.
    + discriminate.
  - split; [intros i; destruct i; reflexivity|].
    split; [|split; [reflexivity | split; reflexivity]].
    rewrite (calc_locked_300_500 noLargeDigits (page_300_500 initialState))
      by (apply lockedOn_page_300_500 || reflexivity).
    reflexivity.
Qed.


(** * More of the resolver *)










(** X5.  The resolution does not depend on the order in which the two
    values were put into the object: the keys are sorted before the
    dispatch. *)
Theorem resolve_order_independent (a b : fieldId) (va vb : num) :
  a <> b -> resolve [(a, va); (b, vb)] = resolve [(b, vb); (a, va)].
Proof.
  intros H. destruct a, b; try congruence; reflexivity.
Qed.

Lemma insertSorted_length k l :
  List.length (insertSorted k l) = S (List.length l).
Proof.
  induction l as [|h t IH]; [reflexivity|]. cbn [insertSorted].
  destruct (String.leb (idString k) (idString h)); cbn [List.length]; auto.
Qed.

Lemma sortKeys_length l : List.length (sortKeys l) = List.length l.
Proof.
  induction l as [|h t IH]; [reflexivity|].
  cbn [sortKeys fold_right]. fold (sortKeys t).
  now rewrite insertSorted_length, IH.
Qed.

(** X6.  An object that does not hold exactly two values is refused with
    the internal error, whatever it holds. *)
Theorem resolve_needs_two_keys (o : object) :
  List.length o <> 2%nat ->
  resolve o = Threw "Internal error: Expected 2 valid inputs.".
Proof.
  intros H. unfold resolve.
  assert (Hl : List.length (sortKeys (keys o)) <> 2%nat).
  { rewrite sortKeys_length. unfold keys. now rewrite length_map. }
  destruct (sortKeys (keys o)) as [|k0 [|k1 [|k2 r]]]; try reflexivity.
  now contradiction Hl.
Qed.

(** ** The power triangle *)














Ltac split_ifs :=
  repeat match goal with
         | |- context [if ?c then _ else _] => destruct c
         end.

Lemma resolve_reaches_case (a b : fieldId) (va vb : num) m :
  a <> b ->
  resolve [(a, va); (b, vb)] = Threw m ->
  ~ internalError ("Calculation Error: " ++ m).
Proof.
  intros Hab. rewrite resolve_pair by exact Hab.
  destruct a, b; try congruence; clear Hab;
    unfold case_kva_kw, case_kvar_kw, case_kw_pf, case_kva_kvar, case_kva_pf,
           case_kvar_pf; cbv zeta;
    split_ifs; intros [= <-]; intros [H | H]; discriminate H.
Qed.

Lemma rejectionMessage_external c m :
  rejectionMessage c = Some m -> ~ internalError m.
Proof.
  destruct c as [|i|i|i v]; cbn [rejectionMessage];
    try discriminate; intros [= <-]; destruct i; intros [H | H]; discriminate H.
Qed.

Lemma recalcMessage_external i c : ~ internalError (recalcMessage i c).
Proof. destruct c, i; intros [H | H]; discriminate H. Qed.

Lemma countMessage_external n : ~ internalError (countMessage n).
Proof.
  unfold countMessage. destruct (2 <? n)%nat; [|destruct (n =? 1)%nat];
    intros [H | H]; discriminate H.
Qed.

Lemma lastRejection_external st m : lastRejection st = Some m -> ~ internalError m.
Proof.
  unfold lastRejection, inputs. cbn [fold_left].
  destruct (rejectionMessage (fieldCheck st pf)) as [m4|] eqn:E4;
    [intros [= <-]; now apply (rejectionMessage_external _ _ E4)|].
  destruct (rejectionMessage (fieldCheck st kvar)) as [m3|] eqn:E3;
    [intros [= <-]; now apply (rejectionMessage_external _ _ E3)|].
  destruct (rejectionMessage (fieldCheck st kva)) as [m2|] eqn:E2;
    [intros [= <-]; now apply (rejectionMessage_external _ _ E2)|].
  destruct (rejectionMessage (fieldCheck st kw)) as [m1|] eqn:E1;
    [intros [= <-]; now apply (rejectionMessage_external _ _ E1)|].
  discriminate.
Qed.

Section InternalErrors.
Variable sd : R -> string.

(** X9.  The user never sees the two internal errors: whatever the page holds,
    the status after a recomputation is neither the complaint about the
    number of inputs nor the one about an unknown pair, so the count check
    and the [default] branch of the dispatch are never taken. *)
Theorem internal_errors_never_shown (st : state) :
  unlocked st \/ (exists a b, lockedOn a b st) ->
  ~ internalError (statusDiv (calculatePowerFactor sd st)).
Proof.
  intros [[Hd Hs] | (a & b & Hl)].
  - rewrite (calc_unlocked sd st Hd).
    destruct (lastRejection st) as [m|] eqn:El.
    { cbn [statusDiv setStatus]. now apply (lastRejection_external st). }
    destruct (supplied st) as [|[a va] [|[b vb] [|? ?]]] eqn:Hsup;
      try (cbn [statusDiv setStatus]; apply countMessage_external).
    destruct (supplied_pair _ _ _ _ _ Hsup) as (Hab & Ha & Hb).
    destruct (resolve [(a, va); (b, vb)]) as [m|r] eqn:Hr.
    + rewrite (calculateAndShow_threw sd _ m) by exact Hr.
      now apply (resolve_reaches_case a b va vb).
    + rewrite (calculateAndShow_done sd _ r a b) by (assumption || reflexivity).
      intros [H | H]; discriminate H.
  - rewrite (calc_locked sd st a b Hl).
    destruct (fieldCheck_cases st a) as [Ha|[Ha|[Ha|[va Ha]]]]; rewrite Ha.
    4: { destruct (fieldCheck_cases st b) as [Hb|[Hb|[Hb|[vb Hb]]]]; rewrite Hb;
         try (cbn [statusDiv setStatus]; apply recalcMessage_external).
         destruct Hl as (Hd & Hs & Hab).
         destruct (resolve [(a, va); (b, vb)]) as [m|r] eqn:Hr.
         - rewrite (calculateAndShow_threw sd _ m) by exact Hr.
           now apply (resolve_reaches_case a b va vb).
         - rewrite (calculateAndShow_done sd _ r a b) by assumption.
           intros [H | H]; discriminate H. }
    all: cbn [statusDiv setStatus];
      destruct (fieldCheck (resetToInitialState st) b);
      apply recalcMessage_external.
Qed.

End InternalErrors.

(** * More of the page *)

Section Recomputation.
Variable sd : R -> string.

Lemma clearFields_initial (st : state) : clearFields st = initialState.
Proof. unfold clearFields. rewrite forEachInput_eq. reflexivity. Qed.

(** X10.  The clear button brings back the page as it was loaded, whatever it
    showed, and a recomputation of that page changes nothing. *)
Theorem clearFields_gives_initial_page (st : state) :
  clearFields st = initialState /\
  calculatePowerFactor sd (clearFields st) = initialState.
Proof.
  pose proof (clearFields_initial st) as H.
  split; [exact H|]. rewrite H.
  rewrite (calc_unlocked sd initialState eq_refl). reflexivity.
Qed.

(** X11.  [resetToInitialState] is idempotent; it unlocks the session, makes every
    input editable with its own placeholder, empties exactly the inputs that
    were read-only or held unparseable text, and leaves the status alone. *)
Theorem reset_unlocks_and_is_idempotent (st : state) :
  let st' := resetToInitialState st in
  resetToInitialState st' = st' /\
  unlocked st' /\
  statusDiv st' = statusDiv st /\
  forall i,
    readOnly (getInput i st') = false /\
    placeholder (getInput i st') = defaultPlaceholder i /\
    value (getInput i st') =
      if readOnly (getInput i st) || unparseable (value (getInput i st))
      then "" else value (getInput i st).
Proof.
  cbv zeta. split; [apply reset_idem|]. split; [split; reflexivity|].
  split; [reflexivity|]. intros i. now rewrite reset_inputs.
Qed.

Lemma setReadOnly_false_idem i e :
  setReadOnly i false (setReadOnly i false e) = setReadOnly i false e.
Proof.
  rewrite !setReadOnly_false_eq. cbn [value placeholder].
  destruct (String.eqb (value e) ""); reflexivity.
Qed.

Lemma resolvedPage_sources r a b st i :
  i = a \/ i = b ->
  getInput i (resolvedPage sd r [a; b] st) = setReadOnly i false (getInput i st).
Proof.
  intros Hi.
  assert (Hinc : includes [a; b] i = true).
  { destruct Hi; subst i; destruct a, b; reflexivity. }
  unfold resolvedPage.
  destruct i; cbn [getInput kwInput kvaInput kvarInput pfInput]; now rewrite Hinc.
Qed.


Lemma resolvedPage_check r a b st i :
  i = a \/ i = b ->
  fieldCheck (resolvedPage sd r [a; b] st) i = fieldCheck st i.
Proof.
  intros Hi. unfold fieldCheck.
  now rewrite (resolvedPage_sources r a b st i Hi), setReadOnly_false_eq.
Qed.

Lemma resolvedPage_idem r a b st :
  a <> b ->
  resolvedPage sd r [a; b] (clearStatus (resolvedPage sd r [a; b] (clearStatus st)))
  = resolvedPage sd r [a; b] (clearStatus st).
Proof.
  intros Hab. unfold resolvedPage.
  destruct a, b; try congruence;
    cbn [includes existsb fieldId_eqb orb getInput clearStatus setStatus
         kwInput kvaInput kvarInput pfInput statusDiv];
    f_equal; try apply showResult_indep; apply setReadOnly_false_idem.
Qed.

(** Recomputing a page that a resolution has just produced gives the same
    page. *)
Lemma resolvedPage_recompute r a b va vb st :
  a <> b ->
  fieldCheck st a = Valid a va -> fieldCheck st b = Valid b vb ->
  resolve [(a, va); (b, vb)] = Done r ->
  calculatePowerFactor sd (resolvedPage sd r [a; b] (clearStatus st))
  = resolvedPage sd r [a; b] (clearStatus st).
Proof.
  intros Hab Ha Hb Hr.
  rewrite (calc_locked sd _ a b (resolvedPage_locked sd r a b _ Hab)).
  rewrite !resolvedPage_check by auto.
  change (fieldCheck (clearStatus st)) with (fieldCheck st).
  rewrite Ha, Hb.
  rewrite (calculateAndShow_done sd _ r a b) by (assumption || reflexivity).
  now apply resolvedPage_idem.
Qed.

(** X12.  A recomputation that ends locked is stable: recomputing again, with no
    edit in between, gives the same page. *)
Theorem recompute_is_idempotent_when_resolved (st : state) :
  unlocked st \/ (exists a b, lockedOn a b st) ->
  initialCalculationDone (calculatePowerFactor sd st) = true ->
  calculatePowerFactor sd (calculatePowerFactor sd st)
  = calculatePowerFactor sd st.
Proof.
  intros Hst Hd.
  destruct (calc_outcome sd st Hst)
    as [[m E] | (a & b & va & vb & r & Hab & _ & Ha & Hb & Hr & E)].
  - rewrite E in Hd. discriminate Hd.
  - rewrite E. now apply (resolvedPage_recompute r a b va vb).
Qed.

(** X13.  After a recomputation a message in the status line means the session is
    unlocked; a page that is locked shows no message, and every page is one
    or the other. *)
Theorem status_message_means_unlocked (st : state) :
  unlocked st \/ (exists a b, lockedOn a b st) ->
  let st' := calculatePowerFactor sd st in
  (statusDiv st' <> "" -> unlocked st') /\
  ((exists a b, lockedOn a b st') -> statusDiv st' = "") /\
  (unlocked st' \/ exists a b, lockedOn a b st').
Proof.
  intros Hst. cbv zeta.
  destruct (calc_outcome sd st Hst)
    as [[m E] | (a & b & va & vb & r & Hab & _ & _ & _ & _ & E)]; rewrite E.
  - assert (Hu : unlocked (setStatus m (resetToInitialState st)))
      by (split; reflexivity).
    split; [intros _; exact Hu|]. split; [|now left].
    intros (a & b & Hl). destruct Hl as (Hd & _). discriminate Hd.
  - split; [intros H; now contradiction H|]. split; [reflexivity|].
    right. exists a, b. now apply resolvedPage_locked.
Qed.

(** X14.  The sources can always be edited: on every page of a session the inputs
    are all editable while it is unlocked, and the two source inputs are
    editable while it is locked. *)
Theorem sources_stay_editable (st : state) :
  reachable sd st ->
  (unlocked st -> forall i, readOnly (getInput i st) = false) /\
  (forall a b, lockedOn a b st ->
     readOnly (getInput a st) = false /\ readOnly (getInput b st) = false).
Proof.
  intros H.
  assert (Inv : (unlocked st /\ forall i, readOnly (getInput i st) = false) \/
                (exists a b, lockedOn a b st /\
                   readOnly (getInput a st) = false /\
                   readOnly (getInput b st) = false)).
  { induction H as [| i t st Hr IH | st Hr IH | st Hr IH].
    - left. split; [split; reflexivity | intros i; destruct i; reflexivity].
    - destruct IH as [[Hu He] | (a & b & Hl & Ha & Hb)].
      + left. split.
        * destruct Hu. split; destruct i; assumption.
        * intros j. specialize (He j). destruct i, j; exact He.
      + right. exists a, b. split; [now apply lockedOn_edit|].
        split; [destruct i, a | destruct i, b]; assumption.
    - destruct (calc_outcome sd st (reachable_lock sd st Hr))
        as [[m E] | (a & b & va & vb & r & Hab & _ & _ & _ & _ & E)]; rewrite E.
      + left. split; [split; reflexivity|]. intros i.
        rewrite getInput_setStatus, reset_inputs. reflexivity.
      + right. exists a, b. split; [now apply resolvedPage_locked|].
        rewrite !resolvedPage_sources, !setReadOnly_false_eq by auto.
        split; reflexivity.
    - left. rewrite (clearFields_initial st).
      split; [split; reflexivity | intros i; destruct i; reflexivity]. }
  split.
  - intros Hu. destruct Inv as [[_ He] | (a & b & Hl & _)]; [exact He|].
    destruct (lockedOn_not_unlocked a b st Hl Hu).
  - intros a b Hl. destruct Inv as [[Hu _] | (a' & b' & Hl' & Ha & Hb)].
    + destruct (lockedOn_not_unlocked a b st Hl Hu).
    + destruct Hl as (_ & Hs & _), Hl' as (_ & Hs' & _).
      rewrite Hs in Hs'. injection Hs' as <- <-. auto.
Qed.

End Recomputation.

Section Messages.
Variable sd : R -> string.

Lemma lastRejection_split st i m before after :
  inputs = (before ++ i :: after)%list ->
  rejectionMessage (fieldCheck st i) = Some m ->
  (forall j, In j after -> rejectionMessage (fieldCheck st j) = None) ->
  lastRejection st = Some m.
Proof.
  intros Hin Hi Hafter. unfold lastRejection. rewrite Hin.
  rewrite fold_left_app. cbn [fold_left]. rewrite Hi.
  clear Hin Hi. induction after as [|j r IH]; [reflexivity|].
  cbn [fold_left]. rewrite (Hafter j (or_introl eq_refl)).
  apply IH. intros k Hk. apply Hafter. now right.
Qed.

(** X15.  While unlocked, one rejected input is enough to refuse the page: the
    session stays unlocked, the status carries the message of the rejected
    input that comes last in the order kw, kva, kvar, pf, unparseable text
    is emptied and every other text is kept. *)
Theorem unlocked_rejection_reports_last (st : state) (i : fieldId) (m : string)
  (before after : list fieldId) :
  initialCalculationDone st = false ->
  inputs = (before ++ i :: after)%list ->
  rejectionMessage (fieldCheck st i) = Some m ->
  (forall j, In j after -> rejectionMessage (fieldCheck st j) = None) ->
  let st' := calculatePowerFactor sd st in
  unlocked st' /\ statusDiv st' = m /\
  forall j,
    readOnly (getInput j st') = false /\
    value (getInput j st') =
      if readOnly (getInput j st) || unparseable (value (getInput j st))
      then "" else value (getInput j st).
Proof.
  intros Hd Hin Hi Hafter. cbv zeta.
  rewrite (calc_unlocked sd st Hd),
          (lastRejection_split st i m before after Hin Hi Hafter).
  split; [split; reflexivity|]. split; [reflexivity|].
  intros j. rewrite getInput_setStatus, reset_inputs. split; reflexivity.
Qed.

Lemma reset_check_editable st i :
  readOnly (getInput i st) = false ->
  isValid (fieldCheck (resetToInitialState st) i) = isValid (fieldCheck st i) /\
  recalcMessage i (fieldCheck (resetToInitialState st) i)
  = recalcMessage i (fieldCheck st i).
Proof.
  intros He. unfold fieldCheck at 1 3. rewrite reset_inputs, He.
  cbn [orb value]. unfold fieldCheck, unparseable, validate.
  destruct (String.eqb (trim (value (getInput i st))) "") eqn:Et; cbn [negb andb].
  - rewrite Et. split; reflexivity.
  - destruct (isNaN (parseFloat (value (getInput i st)))) eqn:En.
    + split; reflexivity.
    + rewrite Et, En. split; reflexivity.
Qed.

(** X16.  While locked, a source that does not validate ends the lock, and the
    status names the last source that failed: the second one when it is
    not valid, else the first. *)
Theorem locked_failure_names_last_invalid_source (st : state) (a b : fieldId) :
  lockedOn a b st ->
  readOnly (getInput b st) = false ->
  isValid (fieldCheck st a) && isValid (fieldCheck st b) = false ->
  let st' := calculatePowerFactor sd st in
  unlocked st' /\
  statusDiv st' =
    if isValid (fieldCheck st b) then recalcMessage a (fieldCheck st a)
    else recalcMessage b (fieldCheck st b).
Proof.
  intros Hl He Hbad. cbv zeta. rewrite (calc_locked sd st a b Hl).
  destruct (reset_check_editable st b He) as [Hv Hm].
  destruct (fieldCheck_cases st a) as [Ha|[Ha|[Ha|[va Ha]]]]; rewrite Ha in Hbad |- *.
  4: { destruct (fieldCheck_cases st b) as [Hb|[Hb|[Hb|[vb Hb]]]];
         rewrite Hb in Hbad |- *; try discriminate Hbad;
         (split; [split; reflexivity | reflexivity]). }
  all: split; [split; reflexivity|]; cbn [statusDiv setStatus];
    rewrite <- Hm;
    destruct (fieldCheck_cases st b) as [Hb|[Hb|[Hb|[vb Hb]]]];
    rewrite Hb in Hv |- *; cbn [isValid] in Hv |- *;
    destruct (fieldCheck (resetToInitialState st) b); try discriminate Hv;
    reflexivity.
Qed.

End Messages.







Section DerivedInputs.
Variable sd : R -> string.


End DerivedInputs.

(** * The debounced listener *)

Section DebounceFacts.
Import Debounce.
Context {A St : Type}.
Variables (func : A -> St -> St) (wait : nat).

Lemma filter_own_timer id d (a : A) :
  filter (fun t => negb (timerId t =? id)%nat) [mkTimer id d a] = [].
Proof. cbn. now rewrite Nat.eqb_refl. Qed.

Lemma clearTimeout_settled (w : @world A St) :
  settled w -> timers (clearTimeout (timeout w) w) = [].
Proof.
  intros [H | (id & d & a & H & Ht)].
  - unfold clearTimeout. destruct (timeout w); cbn; now rewrite ?H.
  - rewrite Ht. cbn. rewrite H. apply filter_own_timer.
Qed.

Lemma executedFunction_settled a (w : @world A St) :
  settled w ->
  executedFunction wait a w =
  mkWorld (now w) (S (nextTimer w))
          [mkTimer (nextTimer w) (now w + wait) a]
          (Some (nextTimer w)) (program w).
Proof.
  intros H. unfold executedFunction, setTimeout.
  rewrite (clearTimeout_settled w H).
  destruct (timeout w); reflexivity.
Qed.

Lemma advance_quiet t (w : @world A St) :
  timers w = [] ->
  advance func t w = mkWorld (Nat.max (now w) t) (nextTimer w) []
                       (timeout w) (program w).
Proof. intros H. unfold advance. rewrite H. cbn. now rewrite H. Qed.

Lemma advance_one t id d a (w : @world A St) :
  timers w = [mkTimer id d a] -> timeout w = Some id ->
  advance func t w =
  if (d <=? t)%nat
  then mkWorld (Nat.max (Nat.max (now w) d) t) (nextTimer w) []
         (Some id) (func a (program w))
  else mkWorld (Nat.max (now w) t) (nextTimer w) [mkTimer id d a]
         (Some id) (program w).
Proof.
  intros H Ht. unfold advance. rewrite H. cbn [List.length runTimers].
  rewrite H. cbn [earliest due args timerId].
  destruct (d <=? t)%nat.
  - unfold later. cbn [timeout clearTimeout timers filter timerId now nextTimer program].
    rewrite Ht. cbn. rewrite Nat.eqb_refl. reflexivity.
  - cbn. now rewrite H, Ht.
Qed.

Lemma advance_settled t (w : @world A St) : settled w -> settled (advance func t w).
Proof.
  intros [H | (id & d & a & H & Ht)].
  - rewrite (advance_quiet t w H). now left.
  - rewrite (advance_one t id d a w H Ht). destruct (d <=? t)%nat.
    + now left.
    + right. exists id, d, a. split; reflexivity.
Qed.

Lemma callAt_settled c (w : @world A St) :
  settled w -> settled (callAt func wait c w).
Proof.
  intros H. unfold callAt. rewrite executedFunction_settled.
  - right. eexists _, _, _. split; reflexivity.
  - apply (advance_settled (callTime c)) in H.
    destruct H as [H | (id & d & a & H & Ht)]; [now left | right].
    exists id, d, a. split; assumption.
Qed.

Lemma armed_settled c0 (w : @world A St) : armed wait c0 w -> settled w.
Proof. intros (_ & id & H & Hid). right. eauto. Qed.

Lemma last_cons_default {X} (r : list X) : forall x d, last (x :: r) d = last r x.
Proof.
  induction r as [|y r IH]; intros x d; [reflexivity|].
  change (last (x :: y :: r) d) with (last (y :: r) d).
  now rewrite (IH y d), (IH y x).
Qed.

Lemma callAt_quiet c (w : @world A St) :
  timers w = [] -> (now w <= callTime c)%nat ->
  armed wait c (callAt func wait c w) /\
  program (callAt func wait c w) = callBefore c (program w).
Proof.
  intros H Hn. unfold callAt.
  rewrite (advance_quiet _ w H). rewrite executedFunction_settled by now left.
  cbn. rewrite Nat.max_r by exact Hn.
  split; [split; [reflexivity | eexists; split; reflexivity] | reflexivity].
Qed.

Lemma callAt_supersedes c c0 (w : @world A St) :
  armed wait c0 w -> (callTime c0 <= callTime c < callTime c0 + wait)%nat ->
  armed wait c (callAt func wait c w) /\
  program (callAt func wait c w) = callBefore c (program w).
Proof.
  intros (Hn & id & H & Hid) Hc. unfold callAt.
  rewrite (advance_one _ id _ _ w H Hid).
  destruct (Nat.leb_spec (callTime c0 + wait) (callTime c)); [lia|].
  rewrite executedFunction_settled
    by (right; eexists _, _, _; split; reflexivity).
  cbn. rewrite Hn, Nat.max_r by lia.
  split; [split; [reflexivity | eexists; split; reflexivity] | reflexivity].
Qed.

Lemma callAt_fires c c0 (w : @world A St) :
  armed wait c0 w -> (callTime c0 + wait <= callTime c)%nat ->
  armed wait c (callAt func wait c w) /\
  program (callAt func wait c w) = callBefore c (func (callArgs c0) (program w)).
Proof.
  intros (Hn & id & H & Hid) Hd. unfold callAt.
  rewrite (advance_one _ id _ _ w H Hid).
  destruct (Nat.leb_spec (callTime c0 + wait) (callTime c)); [|lia].
  rewrite executedFunction_settled by now left.
  cbn. rewrite Hn.
  replace (Nat.max (Nat.max (callTime c0) (callTime c0 + wait)) (callTime c))
    with (callTime c) by lia.
  split; [split; [reflexivity | eexists; split; reflexivity] | reflexivity].
Qed.

Lemma advance_fires t c0 (w : @world A St) :
  armed wait c0 w -> (callTime c0 + wait <= t)%nat ->
  timers (advance func t w) = [] /\
  program (advance func t w) = func (callArgs c0) (program w).
Proof.
  intros (Hn & id & H & Hid) Ht.
  rewrite (advance_one _ id _ _ w H Hid).
  destruct (Nat.leb_spec (callTime c0 + wait) t); [|lia]. split; reflexivity.
Qed.

Lemma burst_runs_last calls : forall c0 (w : @world A St) t,
  armed wait c0 w -> burstFrom wait (callTime c0) calls ->
  (callTime (last calls c0) + wait <= t)%nat ->
  timers (advance func t (runCalls func wait calls w)) = [] /\
  program (advance func t (runCalls func wait calls w)) =
  func (callArgs (last calls c0))
       (fold_left (fun s c => callBefore c s) calls (program w)).
Proof.
  induction calls as [|c r IH]; intros c0 w t Hw Hb Ht.
  - now apply advance_fires.
  - destruct Hb as [Hc Hb].
    destruct (callAt_supersedes c c0 w Hw Hc) as [Hw' Hp].
    rewrite (last_cons_default r c c0) in Ht |- *.
    cbn [runCalls fold_left]. fold (runCalls func wait r (callAt func wait c w)).
    rewrite <- Hp. now apply IH.
Qed.

Lemma spaced_runs_each calls : forall c0 (w : @world A St) t,
  armed wait c0 w -> spacedFrom wait (callTime c0) calls ->
  (callTime (last calls c0) + wait <= t)%nat ->
  timers (advance func t (runCalls func wait calls w)) = [] /\
  program (advance func t (runCalls func wait calls w)) =
  fold_left (fun s c => func (callArgs c) (callBefore c s)) calls
            (func (callArgs c0) (program w)).
Proof.
  induction calls as [|c r IH]; intros c0 w t Hw Hb Ht.
  - now apply advance_fires.
  - destruct Hb as [Hc Hb].
    destruct (callAt_fires c c0 w Hw Hc) as [Hw' Hp].
    rewrite (last_cons_default r c c0) in Ht.
    cbn [runCalls fold_left]. fold (runCalls func wait r (callAt func wait c w)).
    rewrite <- Hp. now apply IH.
Qed.

(** X18.  The closure never leaves more than one timer pending: whatever calls
    and waits a run is made of, the host holds no timer or exactly the one
    whose id [timeout] holds. *)
Theorem debounce_keeps_one_timer (w : @world A St) :
  history func wait w ->
  (List.length (timers w) <= 1)%nat /\ settled w.
Proof.
  intros H.
  assert (Hs : settled w).
  { induction H as [s | c w _ IH | t w _ IH].
    - now left.
    - now apply callAt_settled.
    - now apply advance_settled. }
  split; [|exact Hs].
  destruct Hs as [-> | (id & d & a & -> & _)]; cbn; lia.
Qed.

(** X19.  A burst of calls, each less than [wait] after the one before, runs
    [func] once, [wait] after the last call and with the arguments of the
    last call; the earlier calls are dropped. *)
Theorem debounce_burst_runs_last_call (c : call) (rest : list call)
  (w : @world A St) (t : nat) :
  timers w = [] -> (now w <= callTime c)%nat ->
  burstFrom wait (callTime c) rest ->
  (callTime (last rest c) + wait <= t)%nat ->
  let w' := advance func t (runCalls func wait (c :: rest) w) in
  timers w' = [] /\
  program w' =
  func (callArgs (last rest c))
       (fold_left (fun s x => callBefore x s) (c :: rest) (program w)).
Proof.
  intros Hq Hn Hb Ht. cbv zeta.
  destruct (callAt_quiet c w Hq Hn) as [Hw Hp].
  cbn [runCalls fold_left]. fold (runCalls func wait rest (callAt func wait c w)).
  rewrite <- Hp. now apply burst_runs_last.
Qed.

(** X20.  Calls that are each at least [wait] apart are all served: [func] runs
    once for every call, in order, with that call's arguments. *)
Theorem debounce_spaced_runs_every_call (c : call) (rest : list call)
  (w : @world A St) (t : nat) :
  timers w = [] -> (now w <= callTime c)%nat ->
  spacedFrom wait (callTime c) rest ->
  (callTime (last rest c) + wait <= t)%nat ->
  let w' := advance func t (runCalls func wait (c :: rest) w) in
  timers w' = [] /\
  program w' =
  fold_left (fun s x => func (callArgs x) (callBefore x s)) (c :: rest) (program w).
Proof.
  intros Hq Hn Hb Ht. cbv zeta.
  destruct (callAt_quiet c w Hq Hn) as [Hw Hp].
  cbn [runCalls fold_left]. fold (runCalls func wait rest (callAt func wait c w)).
  rewrite <- Hp. now apply spaced_runs_each.
Qed.

End DebounceFacts.

Section ListenerFacts.
Import Debounce.
Variable sd : R -> string.

Lemma inputEvents_edits typed st :
  fold_left (fun s x => callBefore x s) (inputEvents typed) st
  = applyEdits (map snd typed) st.
Proof.
  revert st. induction typed as [|e r IH]; intros st; [reflexivity|].
  cbn [inputEvents map fold_left applyEdits]. apply IH.
Qed.

Lemma inputEvents_recomputes typed st :
  fold_left (fun s x => calculatePowerFactor sd (callBefore x s)) (inputEvents typed) st
  = runPerKeystroke sd (map snd typed) st.
Proof.
  revert st. induction typed as [|e r IH]; intros st; [reflexivity|].
  cbn [inputEvents map fold_left runPerKeystroke]. apply IH.
Qed.

Lemma last_of_map {X Y} (f : X -> Y) l d : last (map f l) (f d) = f (last l d).
Proof.
  induction l as [|x [|y r] IH]; [reflexivity | reflexivity |].
  exact IH.
Qed.

Lemma inputEvents_last (e : nat * (fieldId * string)) rest :
  callTime (last (inputEvents rest) (inputEvent (fst e) (fst (snd e)) (snd (snd e))))
  = fst (last rest e).
Proof.
  exact (f_equal callTime
           (last_of_map (fun e => inputEvent (fst e) (fst (snd e)) (snd (snd e)))
                        rest e)).
Qed.

(** X21.  Text typed into the inputs in one burst, every keystroke less than
    500 ms after the one before, is validated and resolved once, 500 ms
    after the last keystroke, on the page as the whole burst left it. *)
Theorem typing_burst_recomputes_once (e : nat * (fieldId * string))
  (rest : list (nat * (fieldId * string))) (st : state) (t : nat) :
  burstFrom 500 (fst e) (inputEvents rest) ->
  (fst (last rest e) + 500 <= t)%nat ->
  pageAfter sd (e :: rest) t st = runDebounced sd (map snd (e :: rest)) st.
Proof.
  intros Hb Ht. unfold pageAfter.
  change (inputEvents (e :: rest))
    with (inputEvent (fst e) (fst (snd e)) (snd (snd e)) :: inputEvents rest).
  destruct (burst_runs_last (fun _ => calculatePowerFactor sd) 500
              (inputEvents rest) (inputEvent (fst e) (fst (snd e)) (snd (snd e)))
              (callAt (fun _ => calculatePowerFactor sd) 500
                 (inputEvent (fst e) (fst (snd e)) (snd (snd e))) (start st)) t)
    as [_ Hp].
  - apply callAt_quiet; [reflexivity | cbn; lia].
  - exact Hb.
  - now rewrite inputEvents_last.
  - cbn [runCalls fold_left].
    fold (runCalls (fun _ : unit => calculatePowerFactor sd) 500 (inputEvents rest)
            (callAt (fun _ => calculatePowerFactor sd) 500
               (inputEvent (fst e) (fst (snd e)) (snd (snd e))) (start st))).
    rewrite Hp.
    destruct (callAt_quiet (fun _ => calculatePowerFactor sd) 500
                (inputEvent (fst e) (fst (snd e)) (snd (snd e))) (start st))
      as [_ Hq]; [reflexivity | cbn; lia |].
    rewrite Hq, inputEvents_edits. reflexivity.
Qed.

(** X22.  Keystrokes at least 500 ms apart are each followed by their own
    recomputation, on the page as it stands after that keystroke. *)
Theorem spaced_typing_recomputes_each (e : nat * (fieldId * string))
  (rest : list (nat * (fieldId * string))) (st : state) (t : nat) :
  spacedFrom 500 (fst e) (inputEvents rest) ->
  (fst (last rest e) + 500 <= t)%nat ->
  pageAfter sd (e :: rest) t st = runPerKeystroke sd (map snd (e :: rest)) st.
Proof.
  intros Hb Ht. unfold pageAfter.
  change (inputEvents (e :: rest))
    with (inputEvent (fst e) (fst (snd e)) (snd (snd e)) :: inputEvents rest).
  destruct (spaced_runs_each (fun _ => calculatePowerFactor sd) 500
              (inputEvents rest) (inputEvent (fst e) (fst (snd e)) (snd (snd e)))
              (callAt (fun _ => calculatePowerFactor sd) 500
                 (inputEvent (fst e) (fst (snd e)) (snd (snd e))) (start st)) t)
    as [_ Hp].
  - apply callAt_quiet; [reflexivity | cbn; lia].
  - exact Hb.
  - now rewrite inputEvents_last.
  - cbn [runCalls fold_left].
    fold (runCalls (fun _ : unit => calculatePowerFactor sd) 500 (inputEvents rest)
            (callAt (fun _ => calculatePowerFactor sd) 500
               (inputEvent (fst e) (fst (snd e)) (snd (snd e))) (start st))).
    rewrite Hp.
    destruct (callAt_quiet (fun _ => calculatePowerFactor sd) 500
                (inputEvent (fst e) (fst (snd e)) (snd (snd e))) (start st))
      as [_ Hq]; [reflexivity | cbn; lia |].
    rewrite Hq.
    change (fun (s : state) (x : call) => calculatePowerFactor sd (callBefore x s))
      with (fun (s : state) (x : @call unit state) =>
              calculatePowerFactor sd (callBefore x s)).
    rewrite (inputEvents_recomputes rest). reflexivity.
Qed.

End ListenerFacts.

(** * The page shell *)

Section ShellFacts.
Import Shell.
Variable calculators : list calculator.

Lemma find_updateFirst_same {X} (p : X -> bool) (f : X -> X) l :
  (forall x, p (f x) = p x) ->
  find p (updateFirst p f l) = option_map f (find p l).
Proof.
  intros Hp. induction l as [|x r IH]; [reflexivity|].
  cbn [updateFirst find]. destruct (p x) eqn:E.
  - cbn [find]. now rewrite Hp, E.
  - cbn [find]. now rewrite E.
Qed.

Lemma find_updateFirst_other {X} (p q : X -> bool) (f : X -> X) l :
  (forall x, q (f x) = q x) ->
  (forall x, q x = true -> p x = false) ->
  find q (updateFirst p f l) = find q l.
Proof.
  intros Hq Hpq. induction l as [|x r IH]; [reflexivity|].
  cbn [updateFirst find]. destruct (p x) eqn:E.
  - cbn [find]. rewrite Hq. destruct (q x) eqn:E'; [|reflexivity].
    rewrite (Hpq x E') in E. discriminate E.
  - cbn [find]. now rewrite IH.
Qed.

Lemma find_map_same {X} (p : X -> bool) (f : X -> X) l :
  (forall x, p (f x) = p x) ->
  find p (map f l) = option_map f (find p l).
Proof.
  intros Hp. induction l as [|x r IH]; [reflexivity|].
  cbn [map find]. rewrite Hp. destruct (p x); [reflexivity | exact IH].
Qed.

Lemma initializeCalculator_cases id d :
  initializeCalculator calculators id d = d \/
  (exists sec, getElementById id d = Some sec /\ initialized sec = false) /\
  initializeCalculator calculators id d =
  mkDocument
    (updateFirst (fun s => String.eqb (sectionId s) id)
       (fun s => mkSection (sectionId s) (sectionActive s) true) (sections d))
    (navButtons d) (initCalls d ++ [id]).
Proof.
  unfold initializeCalculator.
  destruct (getElementById id d) as [sec|] eqn:E; [|now left].
  destruct (initialized sec) eqn:Ei; [now left|].
  destruct (find _ calculators) as [c|]; [|now left].
  destruct (hasInit c); [|now left].
  right. split; [eauto | reflexivity].
Qed.

Lemma initializeCalculator_marked id d :
  initsMarked d -> NoDup (initCalls d) ->
  initsMarked (initializeCalculator calculators id d) /\
  NoDup (initCalls (initializeCalculator calculators id d)).
Proof.
  intros Hm Hn.
  destruct (initializeCalculator_cases id d) as [-> | [(sec & Hs & Hi) ->]]; [auto|].
  split.
  - intros id' Hin. cbn [initCalls] in Hin. unfold getElementById. cbn [sections].
    apply in_app_or in Hin. destruct Hin as [Hin | [<- | []]].
    + destruct (Hm id' Hin) as (sec' & Hs' & Hi').
      destruct (String.eqb id' id) eqn:E.
      * apply String.eqb_eq in E. subst id'. congruence.
      * rewrite find_updateFirst_other.
        -- eauto.
        -- reflexivity.
        -- intros x Hx. apply String.eqb_eq in Hx. rewrite Hx.
           exact E.
    + rewrite find_updateFirst_same by reflexivity.
      unfold getElementById in Hs. rewrite Hs. cbn. eauto.
  - cbn [initCalls]. apply NoDup_app; [exact Hn | repeat constructor; intros [] |].
    + intros x Hx [E | []]. subst x.
      destruct (Hm id Hx) as (sec' & Hs' & Hi'). congruence.
Qed.






Lemma marks_found id l l' :
  marks l = marks l' ->
  (exists sec, find (fun s => String.eqb (sectionId s) id) l = Some sec
               /\ initialized sec = true) ->
  exists sec, find (fun s => String.eqb (sectionId s) id) l' = Some sec
              /\ initialized sec = true.
Proof.
  revert l'. induction l as [|x r IH]; intros [|x' r'] E; try discriminate E.
  - intros (sec & H & _). discriminate H.
  - cbn [marks map] in E. injection E as Ei Em Er.
    cbn [find]. rewrite <- Ei. destruct (String.eqb (sectionId x) id).
    + intros (sec & [= <-] & Hi). exists x'. split; [reflexivity | congruence].
    + now apply IH.
Qed.

Lemma marks_shown id l :
  marks (updateFirst (fun s => String.eqb (sectionId s) id)
           (fun s => mkSection (sectionId s) true (initialized s))
           (map (fun s => mkSection (sectionId s) false (initialized s)) l))
  = marks l.
Proof.
  induction l as [|x r IH]; [reflexivity|].
  cbn [map updateFirst sectionId]. destruct (String.eqb (sectionId x) id).
  - cbn [marks map sectionId initialized]. f_equal.
    clear. induction r as [|y r IH]; [reflexivity|]. cbn [map]. now rewrite IH.
  - cbn [marks map sectionId initialized]. f_equal. exact IH.
Qed.

Lemma initializeCalculator_sound id d :
  initsSound calculators d -> initsSound calculators (initializeCalculator calculators id d).
Proof.
  intros (Hm & Hn & Hc).
  destruct (initializeCalculator_marked id d Hm Hn) as [Hm' Hn'].
  split; [exact Hm' | split; [exact Hn'|]].
  unfold initializeCalculator.
  destruct (getElementById id d) as [sec|]; [|exact Hc].
  destruct (initialized sec); [exact Hc|].
  destruct (find _ calculators) as [c|] eqn:Ef; [|exact Hc].
  destruct (hasInit c) eqn:Eh; [|exact Hc].
  cbn [initCalls]. intros id' Hin. apply in_app_or in Hin.
  destruct Hin as [Hin | [<- | []]]; [now apply Hc|].
  apply find_some in Ef. destruct Ef as [Hin E]. apply String.eqb_eq in E.
  exists c. auto.
Qed.

Lemma switchCalculatorView_sound id d :
  initsSound calculators d -> initsSound calculators (switchCalculatorView calculators id d).
Proof.
  intros (Hm & Hn & Hc). unfold switchCalculatorView.
  apply initializeCalculator_sound. split; [|split; [exact Hn | exact Hc]].
  intros id' Hin. cbn [initCalls] in Hin. unfold getElementById. cbn [sections].
  apply (marks_found id' (sections d)); [symmetry; apply marks_shown|].
  now apply Hm.
Qed.

Lemma find_app_found {X} (p : X -> bool) l l' x :
  find p l = Some x -> find p (l ++ l') = Some x.
Proof.
  induction l as [|y r IH]; [discriminate|].
  cbn [find app]. destruct (p y); [auto | exact IH].
Qed.

Lemma addCalculator_sound acc c :
  initsSound calculators (fst acc) -> initsSound calculators (fst (addCalculator calculators acc c)).
Proof.
  destruct acc as [d n]. cbn [fst]. intros (Hm & Hn & Hc). unfold addCalculator.
  set (d1 := mkDocument _ _ _).
  assert (H1 : initsSound calculators d1).
  { split; [|split; [exact Hn | exact Hc]].
    intros id Hin. destruct (Hm id Hin) as (sec & Hs & Hi).
    exists sec. split; [|exact Hi]. now apply find_app_found. }
  destruct (n =? 0)%nat; cbn [fst]; [now apply initializeCalculator_sound | exact H1].
Qed.

Lemma loaded_sound : initsSound calculators (loaded calculators).
Proof.
  unfold loaded.
  assert (H : forall cs acc, initsSound calculators (fst acc) ->
                initsSound calculators (fst (fold_left (addCalculator calculators) cs acc))).
  { induction cs as [|c r IH]; intros acc Hacc; [exact Hacc|].
    cbn [fold_left]. apply IH. now apply addCalculator_sound. }
  apply H. cbn [fst]. split; [intros id []|]. split; [constructor | intros id []].
Qed.

(** X24.  However often the views are switched, [init] runs at most once for a
    calculator, and only for a registered calculator that has an [init]. *)
Theorem init_runs_once_per_calculator (clicks : list string) :
  let d := afterClicks calculators clicks (loaded calculators) in
  NoDup (initCalls d) /\
  forall id, In id (initCalls d) ->
    exists c, In c calculators /\ moduleId c = id /\ hasInit c = true.
Proof.
  cbv zeta.
  assert (H : forall cl d, initsSound calculators d -> initsSound calculators (afterClicks calculators cl d)).
  { induction cl as [|id r IH]; intros d Hd; [exact Hd|].
    cbn [afterClicks fold_left]. apply IH. now apply switchCalculatorView_sound. }
  destruct (H clicks (loaded calculators) loaded_sound) as (_ & Hn & Hc).
  split; assumption.
Qed.


End ShellFacts.



(** * The further properties at concrete inputs *)




Lemma resolve_order_independent_witness :
  resolve [(kw, Fin 300); (kva, Fin 500)] = resolve [(kva, Fin 500); (kw, Fin 300)].
Proof. apply (resolve_order_independent kw kva). discriminate. Defined.

Lemma resolve_needs_two_keys_witness :
  resolve [(kw, Fin 300)] = Threw "Internal error: Expected 2 valid inputs." /\
  resolve [(kw, Fin 300); (kva, Fin 500); (pf, Fin 1)]
  = Threw "Internal error: Expected 2 valid inputs.".
Proof.
  split; apply resolve_needs_two_keys; cbn [List.length]; discriminate.
Defined.



Lemma internal_errors_never_shown_witness :
  ~ internalError
      (statusDiv (calculatePowerFactor noLargeDigits (edit kw "300" initialState))).
Proof.
  apply internal_errors_never_shown. left. split; reflexivity.
Defined.

Lemma recompute_is_idempotent_when_resolved_witness :
  let st := edit kva "500" (edit kw "300" initialState) in
  calculatePowerFactor noLargeDigits (calculatePowerFactor noLargeDigits st)
  = calculatePowerFactor noLargeDigits st.
Proof.
  intros st. apply recompute_is_idempotent_when_resolved.
  - left. split; reflexivity.
  - unfold st. rewrite (calc_unlocked_300_500 noLargeDigits). reflexivity.
Defined.

Lemma status_message_means_unlocked_witness :
  let st' := calculatePowerFactor noLargeDigits (edit kw "300" initialState) in
  (statusDiv st' <> "" -> unlocked st') /\
  ((exists a b, lockedOn a b st') -> statusDiv st' = "") /\
  (unlocked st' \/ exists a b, lockedOn a b st').
Proof.
  apply (status_message_means_unlocked noLargeDigits (edit kw "300" initialState)).
  left. split; reflexivity.
Defined.

Lemma sources_stay_editable_witness :
  readOnly (getInput kw (page_300_500 initialState)) = false /\
  readOnly (getInput kva (page_300_500 initialState)) = false.
Proof.
  apply (proj2 (sources_stay_editable noLargeDigits (page_300_500 initialState)
                  (reachable_page_300_500 noLargeDigits))).
  apply lockedOn_page_300_500.
Defined.

Lemma unlocked_rejection_reports_last_witness :
  let st := edit kva "abc" (edit kw "-5" initialState) in
  let st' := calculatePowerFactor noLargeDigits st in
  rejectionMessage (fieldCheck st kva) = Some "Invalid number entered for KVA." /\
  unlocked st' /\ statusDiv st' = "Invalid number entered for KVA." /\
  forall j,
    readOnly (getInput j st') = false /\
    value (getInput j st') =
      if readOnly (getInput j st) || unparseable (value (getInput j st))
      then "" else value (getInput j st).
Proof.
  intros st st'.
  assert (Hi : rejectionMessage (fieldCheck st kva)
               = Some "Invalid number entered for KVA.") by reflexivity.
  split; [exact Hi|].
  apply (unlocked_rejection_reports_last noLargeDigits st kva _ [kw] [kvar; pf]
           eq_refl eq_refl Hi).
  intros j [<- | [<- | []]]; reflexivity.
Defined.

Lemma locked_failure_names_last_invalid_source_witness :
  let st := edit kva "" (edit kw "" (page_300_500 initialState)) in
  let st' := calculatePowerFactor noLargeDigits st in
  lockedOn kw kva st /\
  unlocked st' /\ statusDiv st' = "Please provide a valid number for KVA.".
Proof.
  intros st st'.
  assert (Hl : lockedOn kw kva st) by (repeat split; discriminate).
  split; [exact Hl|].
  exact (locked_failure_names_last_invalid_source noLargeDigits st kw kva Hl
           eq_refl eq_refl).
Defined.


Lemma debounce_keeps_one_timer_witness :
  let w := Debounce.callAt (@cons nat) 500%nat (Debounce.mkCall 100%nat (fun s => s) 2%nat)
             (Debounce.callAt (@cons nat) 500%nat (Debounce.mkCall 0%nat (fun s => s) 1%nat)
                (Debounce.start [])) in
  (List.length (Debounce.timers w) <= 1)%nat /\ Debounce.settled w.
Proof.
  apply (debounce_keeps_one_timer (@cons nat) 500%nat). repeat constructor.
Defined.

Lemma debounce_burst_runs_last_call_witness :
  let calls := [Debounce.mkCall 0%nat (fun s => s) 1%nat; Debounce.mkCall 100%nat (fun s => s) 2%nat;
                Debounce.mkCall 400%nat (fun s => s) 3%nat] in
  Debounce.program
    (Debounce.advance (@cons nat) 900%nat
       (Debounce.runCalls (@cons nat) 500%nat calls (Debounce.start [])))
  = [3%nat].
Proof.
  refine (proj2 (debounce_burst_runs_last_call (@cons nat) 500%nat
                   (Debounce.mkCall 0%nat (fun s => s) 1%nat)
                   [Debounce.mkCall 100%nat (fun s => s) 2%nat;
                    Debounce.mkCall 400%nat (fun s => s) 3%nat]
                   (Debounce.start []) 900%nat eq_refl (le_n 0) _ _)).
  - cbn. lia.
  - cbn. lia.
Defined.

Lemma debounce_spaced_runs_every_call_witness :
  let calls := [Debounce.mkCall 0%nat (fun s => s) 1%nat; Debounce.mkCall 500%nat (fun s => s) 2%nat;
                Debounce.mkCall 1200%nat (fun s => s) 3%nat] in
  Debounce.program
    (Debounce.advance (@cons nat) 1700%nat
       (Debounce.runCalls (@cons nat) 500%nat calls (Debounce.start [])))
  = [3%nat; 2%nat; 1%nat].
Proof.
  refine (proj2 (debounce_spaced_runs_every_call (@cons nat) 500%nat
                   (Debounce.mkCall 0%nat (fun s => s) 1%nat)
                   [Debounce.mkCall 500%nat (fun s => s) 2%nat;
                    Debounce.mkCall 1200%nat (fun s => s) 3%nat]
                   (Debounce.start []) 1700%nat eq_refl (le_n 0) _ _)).
  - cbn. lia.
  - cbn. lia.
Defined.

Lemma typing_burst_recomputes_once_witness :
  pageAfter noLargeDigits [(0%nat, (kw, "300")); (200%nat, (kva, "500"))] 700%nat
    initialState
  = runDebounced noLargeDigits [(kw, "300"); (kva, "500")] initialState.
Proof.
  apply (typing_burst_recomputes_once noLargeDigits (0%nat, (kw, "300"))
           [(200%nat, (kva, "500"))] initialState 700%nat).
  - cbn. lia.
  - cbn. lia.
Defined.

Lemma spaced_typing_recomputes_each_witness :
  pageAfter noLargeDigits [(0%nat, (kw, "300")); (600%nat, (kva, "500"))] 1100%nat
    initialState
  = runPerKeystroke noLargeDigits [(kw, "300"); (kva, "500")] initialState.
Proof.
  apply (spaced_typing_recomputes_each noLargeDigits (0%nat, (kw, "300"))
           [(600%nat, (kva, "500"))] initialState 1100%nat).
  - cbn. lia.
  - cbn. lia.
Defined.
